(** * dmhy-subscribe: the subscription store of [fakedb.js]

    A shallow embedding of the classes [Subscription] and [Database] of
    [src/fakedb.js], and the properties of thread insertion, ordering,
    episode selection, sid generation and download dispatch.

    JavaScript values are modelled as follows.
    - A number is [NaN], an infinity or a finite value.  A finite double is
      a rational, so finite values are carried as [Q]; the two zeros are
      identified (no operation of this file tells them apart).  The only
      arithmetic the code performs is the subtraction inside the sort
      comparator, of which only the sign is used; a double subtraction
      rounds, but its sign and its being zero are those of the exact
      difference.
    - A thread is an object; two threads with the same fields may still be
      different objects.  The field [ref] stands for the object identity,
      so that equality of records is identity of objects.
    - A string is carried as its UTF-8 text.  Equality, splitting at a
      comma or at dots and concatenation are the same on the text as on
      the string; the length of a string and the order of strings are
      those of its UTF-16 code units, which [code_units] reads from the
      text.
    - An array is a list; mutation of [this] is explicit state passing;
      writes to the console are returned as a list of calls.
    - The subscriptions of a [Database] are objects that it holds by
      reference and mutates: they live in a store, and the array of the
      database holds their locations. *)

From Stdlib Require Import List String Ascii Bool ZArith QArith Lia.
From Stdlib Require Import Sorted Permutation.
Import ListNotations.

Local Open Scope Z_scope.
Local Open Scope list_scope.

(** ** Numbers and values *)

Inductive number : Type :=
| NaN
| Infinity (negative : bool)
| Finite (q : Q).

(** The values found in an [ep] slot, in [latest] and in a destructured
    range bound: a number, or [undefined] past the end of an array. *)
Inductive value : Type :=
| undefined
| Num (n : number).

(** The global [isFinite] on a number. *)
Definition isFinite (n : number) : bool :=
  match n with
  | Finite _ => true
  | _ => false
  end.

(** [ToNumber]: [undefined] converts to [NaN]. *)
Definition ToNumber (v : value) : number :=
  match v with
  | undefined => NaN
  | Num n => n
  end.

(** The binary [-] on numbers. *)
Definition number_sub (a b : number) : number :=
  match a, b with
  | NaN, _ | _, NaN => NaN
  | Infinity s, Infinity s' => if Bool.eqb s s' then NaN else Infinity s
  | Infinity s, Finite _ => Infinity s
  | Finite _, Infinity s => Infinity (negb s)
  | Finite x, Finite y => Finite (x - y)
  end.

(** The binary [-] on values. *)
Definition minus (a b : value) : number :=
  number_sub (ToNumber a) (ToNumber b).

(** [n > 0]. *)
Definition positive (n : number) : bool :=
  match n with
  | NaN => false
  | Infinity negative => negb negative
  | Finite q => match (0 ?= q)%Q with Lt => true | _ => false end
  end.

(** [SameValueZero], the equality of [Array.prototype.includes] and of
    [Set]: [NaN] equals itself. *)
Definition SameValueZero (a b : number) : bool :=
  match a, b with
  | NaN, NaN => true
  | Infinity s, Infinity s' => Bool.eqb s s'
  | Finite x, Finite y => Qeq_bool x y
  | _, _ => false
  end.

(** ** Arrays *)

(** [a[i]]. *)
Definition index {A : Type} (a : list A) (i : nat) : option A := nth_error a i.

(** [a[i]] on an array of numbers, as a value. *)
Definition at_ (a : list number) (i : nat) : value :=
  match nth_error a i with
  | Some n => Num n
  | None => undefined
  end.

(** [a.includes(v)] on an array of numbers. *)
Definition includes (a : list number) (v : value) : bool :=
  match v with
  | undefined => false
  | Num n => existsb (SameValueZero n) a
  end.

(** [a.findIndex(p)]: the first index whose element satisfies [p], or -1. *)
Fixpoint findIndex {A : Type} (p : A -> bool) (a : list A) : Z :=
  match a with
  | [] => -1
  | x :: a' =>
      if p x then 0
      else let i := findIndex p a' in
           if i <? 0 then -1 else i + 1
  end.

(** [a.slice(start, end)], with the treatment of negative and of too large
    indices of [Array.prototype.slice]. *)
Definition slice {A : Type} (a : list A) (start end_ : Z) : list A :=
  let len := Z.of_nat (List.length a) in
  let k := if start <? 0 then Z.max (len + start) 0 else Z.min start len in
  let final := if end_ <? 0 then Z.max (len + end_) 0 else Z.min end_ len in
  let count := Z.max (final - k) 0 in
  firstn (Z.to_nat count) (skipn (Z.to_nat k) a).

(** [a.slice(start)]. *)
Definition slice_from {A : Type} (a : list A) (start : Z) : list A :=
  slice a start (Z.of_nat (List.length a)).

(** [a.sort(comparefn)].  [gt x y] stands for [comparefn(x, y) > 0]; a
    comparator that returns [NaN] counts as returning 0.

    [Array.prototype.sort] is stable, and for a consistent comparator its
    result is the one stable sorted arrangement, which the straight
    insertion sort below computes: each element in turn moves left past the
    elements that compare greater than it.  For a comparator that is not
    consistent ([b.ep[0] - a.ep[0]] is [NaN] on a thread with an empty
    [ep], [b.latest - a.latest] on an [undefined] [latest]) the order is
    left to the engine, and the insertion sort is one such order, which
    need not be that of a given engine.  The statements about the order
    that a sort leaves are therefore made where the comparator is
    consistent, or of any sort function ([sort_with] and [add_with]
    below). *)
Fixpoint insert {A : Type} (gt : A -> A -> bool) (x : A) (sorted : list A)
  : list A :=
  match sorted with
  | [] => [x]
  | y :: rest =>
      if forallb (fun z => gt z x) sorted then x :: sorted
      else y :: insert gt x rest
  end.

Definition Array_sort {A : Type} (gt : A -> A -> bool) (a : list A) : list A :=
  fold_left (fun sorted x => insert gt x sorted) a [].

(** ** Strings *)

Local Open Scope string_scope.
Local Open Scope list_scope.
Local Open Scope Z_scope.

(** A non-empty string is truthy. *)
Definition truthy (s : string) : bool :=
  match s with
  | EmptyString => false
  | String _ _ => true
  end.

Definition cons_first (c : ascii) (pieces : list string) : list string :=
  match pieces with
  | [] => [String c EmptyString]
  | w :: ws => String c w :: ws
  end.

(** [s.split(sep)] for a one-character separator. *)
Fixpoint split_on (sep : ascii) (s : string) : list string :=
  match s with
  | EmptyString => [EmptyString]
  | String c s' =>
      if Ascii.eqb c sep then EmptyString :: split_on sep s'
      else cons_first c (split_on sep s')
  end.

(** [a.join(sep)]. *)
Fixpoint join (sep : string) (a : list string) : string :=
  match a with
  | [] => EmptyString
  | [w] => w
  | w :: ws => (w ++ sep ++ join sep ws)%string
  end.

Definition is_dot (c : ascii) : bool := Ascii.eqb c "."%char.

(** [s.split(/\.{2,}/)]: the separators are the maximal runs of two or more
    dots; a lone dot belongs to its piece. *)
Fixpoint split_dots (s : string) : list string :=
  match s with
  | EmptyString => [EmptyString]
  | String c s' =>
      if is_dot c then
        match s' with
        | String c' s'' =>
            if is_dot c' then
              EmptyString ::
                (fix after_run (t : string) : list string :=
                   match t with
                   | EmptyString => [EmptyString]
                   | String d t' =>
                       if is_dot d then after_run t'
                       else cons_first d (split_dots t')
                   end) s''
            else cons_first c (split_dots s')
        | EmptyString => [String c EmptyString]
        end
      else cons_first c (split_dots s')
  end.

(** The default [a.sort()] on the strings of numbers; [gt x y] is [y < x].
    The strings of numbers are made of characters below 128, on which the
    order of bytes is the order of code units. *)
Definition string_gt (x y : string) : bool := String.ltb y x.

(** The UTF-16 code units of a string, read from its UTF-8 bytes: a
    sequence of one, two or three bytes is one code unit, a sequence of
    four bytes is a surrogate pair.  (A byte that starts no sequence, which
    the text of a string never holds, stands for itself.) *)
Fixpoint code_units (s : string) : list N :=
  match s with
  | EmptyString => []
  | String b0 s1 =>
      let n0 := N_of_ascii b0 in
      if (n0 <? 192)%N then n0 :: code_units s1
      else
        match s1 with
        | EmptyString => [n0]
        | String b1 s2 =>
            let n1 := N_of_ascii b1 in
            if (n0 <? 224)%N
            then ((n0 mod 32) * 64 + n1 mod 64)%N :: code_units s2
            else
              match s2 with
              | EmptyString => [n0; n1]
              | String b2 s3 =>
                  let n2 := N_of_ascii b2 in
                  if (n0 <? 240)%N
                  then ((n0 mod 16) * 4096 + (n1 mod 64) * 64 + n2 mod 64)%N
                       :: code_units s3
                  else
                    match s3 with
                    | EmptyString => [n0; n1; n2]
                    | String b3 s4 =>
                        let n3 := N_of_ascii b3 in
                        let v := ((n0 mod 8) * 262144 + (n1 mod 64) * 4096
                                  + (n2 mod 64) * 64 + n3 mod 64 - 65536)%N in
                        (55296 + v / 1024)%N :: (56320 + v mod 1024)%N
                        :: code_units s4
                    end
              end
        end
  end.

(** [s.length]: the number of code units. *)
Definition code_unit_length (s : string) : nat := List.length (code_units s).

(** The order of sequences of code units: the first difference decides,
    and a proper prefix comes first. *)
Fixpoint units_compare (a b : list N) : comparison :=
  match a, b with
  | [], [] => Eq
  | [], _ :: _ => Lt
  | _ :: _, [] => Gt
  | x :: a', y :: b' =>
      match (x ?= y)%N with
      | Eq => units_compare a' b'
      | c => c
      end
  end.

(** The comparison of two strings by code units.  Two different strings
    have different code units; the comparison of bytes only separates
    byte sequences that are the text of no string. *)
Definition code_unit_compare (x y : string) : comparison :=
  match units_compare (code_units x) (code_units y) with
  | Eq => String.compare x y
  | c => c
  end.

(** The default [a.sort()] on strings compares them by code unit;
    [gt x y] is [y < x]. *)
Definition code_unit_gt (x y : string) : bool :=
  match code_unit_compare y x with
  | Lt => true
  | _ => false
  end.

(** ** Threads *)

(** A thread object [{ title, link, ep }].  [ref] is the identity of the
    object: two threads built with the same fields differ in [ref]. *)
Record Thread : Type := mkThread {
  ref : nat;
  title : string;
  link : string;
  ep : list number
}.

Definition number_eq_dec (a b : number) : {a = b} + {a <> b}.
Proof.
  decide equality.
  - apply Bool.bool_dec.
  - decide equality; [apply Pos.eq_dec | apply Z.eq_dec].
Defined.

(** Identity of thread objects ([===], and the membership test of a [Set]). *)
Definition Thread_eq_dec (a b : Thread) : {a = b} + {a <> b}.
Proof.
  decide equality.
  - apply (list_eq_dec number_eq_dec).
  - apply string_dec.
  - apply string_dec.
  - apply Nat.eq_dec.
Defined.

(** Calls of [console.error], in the order they are made. *)
Inductive console_call : Type :=
| console_error (message : string) (thread : Thread).

(** ** The class [XSet] *)

(** The class [XSet] of [./utils] is not among the sources.  The spec
    describes the collection of [getThreads] as a union with
    de-duplication by thread identity that keeps the order in which a
    thread is first met.  [XSet] is therefore taken to be a [Set], which
    iterates in insertion order and compares objects by identity. *)
Module XSet.

(** Modelled from the spec: the class [XSet], as the elements of the set in
    insertion order. *)
Definition t : Type := list Thread.

(** [new XSet()]. *)
Definition empty : t := [].

(** [Set.prototype.has]. *)
Definition has (s : t) (x : Thread) : bool :=
  if in_dec Thread_eq_dec x s then true else false.

(** [Set.prototype.add]: an element already present keeps its place. *)
Definition add (s : t) (x : Thread) : t :=
  if has s x then s else s ++ [x].

(** Modelled from the spec: the method [union(iterable, true)] of [XSet],
    as the union in place, which adds the elements of [iterable] to the
    receiver one after the other. *)
Definition union (s : t) (iterable : list Thread) : t :=
  fold_left add iterable s.

(** [[...s]]. *)
Definition spread (s : t) : list Thread := s.

End XSet.

(** ** Console output *)

(** A row of the table printed by [Subscription.list]. *)
Record row : Type := mkRow {
  Episode : string;
  Title : string
}.

(** Calls of [console.log] and [console.table], in the order they are
    made.  [console.log()] without argument prints an empty line, as
    [console.log('')] does. *)
Inductive console_out : Type :=
| console_log (line : string)
| console_table (rows : list row).

(** [s.repeat(n)]. *)
Fixpoint repeat_string (s : string) (n : nat) : string :=
  match n with
  | O => EmptyString
  | S n' => (s ++ repeat_string s n')%string
  end.

(** ** The class [Subscription] *)

Module Subscription.

Record t : Type := mk {
  name : string;
  keywords : list string;
  sid : option string;        (* [null] is [None] *)
  threads : list Thread;
  latest : value
}.

Definition set_threads (this : t) (ths : list Thread) : t :=
  mk (name this) (keywords this) (sid this) ths (latest this).

Definition set_latest (this : t) (v : value) : t :=
  mk (name this) (keywords this) (sid this) (threads this) v.

Definition set_sid (this : t) (s : option string) : t :=
  mk (name this) (keywords this) s (threads this) (latest this).

(** [new Subscription(subscribable)] for a string: the name is the first
    comma-separated field, the keywords are the others, sorted.  (For an
    object the constructor copies its fields: the record itself.) *)
Definition new (subscribable : string) : t :=
  let fields := split_on "," subscribable in
  mk (hd EmptyString fields)
     (Array_sort code_unit_gt (tl fields))
     None
     []
     (Num (Finite (-1))).

(** [comparefn(a, b) > 0] for [(a, b) => b.ep[0] - a.ep[0]]. *)
Definition comparefn_gt (a b : Thread) : bool :=
  positive (minus (at_ (ep b) 0) (at_ (ep a) 0)).

(** [sort()]. *)
Definition sort (this : t) : t :=
  set_threads this (Array_sort comparefn_gt (threads this)).

(** The message of the rejection. *)
Definition invalid_message (this : t) : string :=
  ("Can't add invalid thread into subscription [" ++ name this ++ "]")%string.

(** [add(thread)]: the new state and the console calls made.  After the
    push the array is not empty, so that [this.threads[0]] is a thread;
    the branch for an empty array is never taken. *)
Definition add (thread : Thread) (this : t) : t * list console_call :=
  if forallb isFinite (ep thread) && truthy (title thread)
     && truthy (link thread)
  then
    let this1 := set_threads this (threads this ++ [thread]) in
    let this2 := sort this1 in
    match index (threads this2) 0 with
    | Some top => (set_latest this2 (at_ (slice_from (ep top) (-1)) 0), [])
    | None => (this2, [])
    end
  else (this, [console_error (invalid_message this) thread]).

(** [sort()] and [add(thread)] with the sort of the engine left open:
    [sorter] stands for [a.sort((a, b) => b.ep[0] - a.ep[0])]. *)
Definition sort_with (sorter : list Thread -> list Thread) (this : t) : t :=
  set_threads this (sorter (threads this)).

Definition add_with (sorter : list Thread -> list Thread) (thread : Thread)
  (this : t) : t * list console_call :=
  if forallb isFinite (ep thread) && truthy (title thread)
     && truthy (link thread)
  then
    let this1 := set_threads this (threads this ++ [thread]) in
    let this2 := sort_with sorter this1 in
    match index (threads this2) 0 with
    | Some top => (set_latest this2 (at_ (slice_from (ep top) (-1)) 0), [])
    | None => (this2, [])
    end
  else (this, [console_error (invalid_message this) thread]).

(** *** [generateSid] *)

Section Hash.

(** The function [hash] of [./utils], which is not among the sources:
    a function of its two arguments, returning a string. *)
Variable hash : string -> string -> string.

(** [existed.has(sid)] for [existed = new Set(existedSids)]. *)
Definition existed_has (existedSids : list (option string)) (s : string)
  : bool :=
  existsb (fun o => match o with
                    | Some s' => String.eqb s' s
                    | None => false
                    end) existedSids.

(** The loop [while (existed.has(this.sid)) this.sid = hash(...)]; at
    most [fuel] tests of the condition, [None] when they do not
    suffice. *)
Fixpoint rehash (fuel : nat) (existedSids : list (option string))
  (name_ sid_ : string) : option string :=
  match fuel with
  | O => None
  | S fuel' =>
      if existed_has existedSids sid_
      then rehash fuel' existedSids name_ (hash name_ sid_)
      else Some sid_
  end.

(** [generateSid(existedSids)]. *)
Definition generateSid (fuel : nat) (existedSids : list (option string))
  (this : t) : option t :=
  let sid0 := hash (name this) (join "," (keywords this)) in
  match rehash fuel existedSids (name this) sid0 with
  | Some s => Some (set_sid this (Some s))
  | None => None
  end.

End Hash.

(** *** [getThreads] *)

Section Selector.

(** [Number] applied to a string, and the conversion of a number to a
    string used by the default [sort()]. *)
Variable Number : string -> number.
Variable ToString : number -> string.

(** [comparefn(x, y) > 0] for the default comparison of [sort()]:
    the elements are compared as strings. *)
Definition default_gt (x y : number) : bool :=
  string_gt (ToString x) (ToString y).

(** [[epi, epj]] of a range token. *)
Definition range_bounds (ep_ : string) : value * value :=
  let sorted := Array_sort default_gt (map Number (split_dots ep_)) in
  (at_ sorted 0, at_ sorted 1).

(** The body of the loop over the tokens: the threads handed to
    [collection.union]. *)
Definition token_threads (this : t) (ep_ : string) : list Thread :=
  if isFinite (Number ep_) then
    filter (fun th => includes (ep th) (Num (Number ep_))) (threads this)
  else
    let (epi, epj) := range_bounds ep_ in
    let head := findIndex (fun th => includes (ep th) epj) (threads this) in
    let tail := findIndex (fun th => includes (ep th) epi) (threads this) in
    slice (threads this) head (tail + 1).

(** [getThreads(epstr)]. *)
Definition getThreads (this : t) (epstr : string) : list Thread :=
  if negb (truthy epstr) || String.eqb epstr "all" then threads this
  else
    let eps := split_on "," epstr in
    XSet.spread
      (fold_left (fun collection ep_ =>
                    XSet.union collection (token_threads this ep_))
                 eps XSet.empty).

End Selector.

(** *** [list] *)

(** The string [[this.name, ...this.keywords].join(',')]. *)
Definition subscribable_of (this : t) : string :=
  join "," (name this :: keywords this).

Section Listing.

(** The conversion of a number to a string, which [ep.join(',')] applies
    to each episode. *)
Variable ToString : number -> string.

(** The rows [{ Episode, Title }] of the threads. *)
Definition rows_of (this : t) : list row :=
  map (fun th => mkRow (join "," (map ToString (ep th))) (title th))
    (threads this).

(** [list()]: the console calls made. *)
Definition list (this : t) : list console_out :=
  let subscribable := subscribable_of this in
  [console_log subscribable;
   console_log (repeat_string "=" (code_unit_length subscribable));
   console_log EmptyString;
   console_table (rev (rows_of this))].

End Listing.

End Subscription.

(** *** Sequences of calls *)

(** A call of [add] or of [sort] on a subscription. *)
Inductive call : Type :=
| call_add (thread : Thread)
| call_sort.

Definition step (c : call) (this : Subscription.t)
  : Subscription.t * list console_call :=
  match c with
  | call_add thread => Subscription.add thread this
  | call_sort => (Subscription.sort this, [])
  end.

(** The calls [cs] made one after the other: the final state and all the
    console calls. *)
Fixpoint run (cs : list call) (this : Subscription.t)
  : Subscription.t * list console_call :=
  match cs with
  | [] => (this, [])
  | c :: cs' =>
      let (this', out) := step c this in
      let (this'', out') := run cs' this' in
      (this'', out ++ out')
  end.

(** The same calls with the sort of the engine left open. *)
Definition step_with (sorter : list Thread -> list Thread) (c : call)
  (this : Subscription.t) : Subscription.t * list console_call :=
  match c with
  | call_add thread => Subscription.add_with sorter thread this
  | call_sort => (Subscription.sort_with sorter this, [])
  end.

Fixpoint run_with (sorter : list Thread -> list Thread) (cs : list call)
  (this : Subscription.t) : Subscription.t * list console_call :=
  match cs with
  | [] => (this, [])
  | c :: cs' =>
      let (this', out) := step_with sorter c this in
      let (this'', out') := run_with sorter cs' this' in
      (this'', out ++ out')
  end.

(** ** Subscription objects *)

(** A subscription is an object that [Database] holds by reference and
    that [Database.add] and [Database.sort] mutate: the store gives the
    fields of the object at each location. *)
Definition loc : Type := nat.

Definition store : Type := loc -> Subscription.t.

(** The store after the object at [l] was given the fields [s]. *)
Definition store_set (h : store) (l : loc) (s : Subscription.t) : store :=
  fun l' => if Nat.eqb l' l then s else h l'.

(** [a.splice(index, 1)] for an index of the array: the array without
    that element. *)
Definition splice1 {A : Type} (a : list A) (index : Z) : list A :=
  firstn (Z.to_nat index) a ++ skipn (S (Z.to_nat index)) a.

(** ** The class [Database] *)

Module Database.

(** The second parameter of [download]; an absent field is [None]. *)
Record options : Type := mkOptions {
  client : option string;
  destination : option string;
  jsonrpc : option string
}.

(** [spawn(command, args, { stdio })]. *)
Record spawn_call : Type := mkSpawn {
  command : string;
  args : list string;
  stdio : string
}.

(** What the child process reports: its exit code, or a launch error. *)
Inductive task_event : Type :=
| close (code : Z)
| error (err : string).

(** The settled promise. *)
Inductive settlement : Type :=
| resolved (code : Z)
| rejected_code (code : Z)
| rejected_error (err : string).

(** The result of [download]: the processes spawned by the call, and how
    the returned promise settles on the event of the child process. *)
Record download_result : Type := mkDownload {
  spawned : list spawn_call;
  settle : task_event -> settlement
}.

(** [static isSupportedClient(client)]. *)
Definition isSupportedClient (client_ : string) : bool :=
  existsb (String.eqb client_) ["aria2"; "deluge"].

(** [given || fallback]: an absent or empty string is falsy. *)
Definition or_else (given : option string) (fallback : string) : string :=
  match given with
  | Some s => if truthy s then s else fallback
  | None => fallback
  end.

Section Download.

(** [this.config.get]; the class [Config] of [./config] is not among
    the sources. *)
Variable config_get : string -> string.
(** [__dirname], [path.resolve], and [JSON.stringify] at the two values
    it is applied to: the thread, and [{ dest, jsonrpc }]. *)
Variable dirname : string.
Variable path_resolve : string -> string.
Variable stringify_thread : Thread -> string.
Variable stringify_dest : string -> string -> string.

(** The path of the downloader script of a client. *)
Definition script_of (client_ : string) : string :=
  path_resolve (dirname ++ "/downloaders/" ++ client_ ++ ".js")%string.

(** The constants [dest], [dclient] and [djsonrpc] of [download]. *)
Definition dest (o : options) : string :=
  or_else (destination o) (config_get "destination").

Definition dclient (o : options) : string :=
  or_else (client o) (config_get "client").

Definition djsonrpc (o : options) : string :=
  or_else (jsonrpc o) (config_get "jsonrpc").

(** [download(thread, { client, destination, jsonrpc })]. *)
Definition download (thread : Thread) (o : options) : download_result :=
  let script := script_of (dclient o) in
  let args_ := [stringify_thread thread;
                stringify_dest (dest o) (djsonrpc o)] in
  let args_ := script :: args_ in
  mkDownload
    [mkSpawn "node" args_ "inherit"]
    (fun ev =>
       match ev with
       | close code => if code =? 0 then resolved code
                       else rejected_code code
       | error err => rejected_error err
       end).

End Download.

End Database.

(** ** A decimal fragment of the number conversions

    [Number_dec] and [ToString_dec] are [Number] and the number-to-string
    conversion on the integer literals: an optional sign, then decimal
    digits or [Infinity]; the empty string converts to 0.  They are used
    on such literals only.  (White space, fractions, exponents and radix
    prefixes are outside the fragment, and so are the numbers that are not
    integers; integers print in this way below 10^21.) *)

Definition digit (c : ascii) : option Z :=
  let n := Z.of_nat (nat_of_ascii c) in
  if (48 <=? n) && (n <=? 57) then Some (n - 48) else None.

Fixpoint digits (acc : Z) (s : string) : option Z :=
  match s with
  | EmptyString => Some acc
  | String c s' =>
      match digit c with
      | Some d => digits (10 * acc + d) s'
      | None => None
      end
  end.

Definition unsigned_literal (s : string) : number :=
  if String.eqb s "Infinity" then Infinity false
  else match s with
       | EmptyString => NaN
       | _ => match digits 0 s with
              | Some z => Finite (inject_Z z)
              | None => NaN
              end
       end.

Definition negate (n : number) : number :=
  match n with
  | NaN => NaN
  | Infinity s => Infinity (negb s)
  | Finite q => Finite (- q)
  end.

Definition Number_dec (s : string) : number :=
  match s with
  | EmptyString => Finite 0
  | String "+" s' => unsigned_literal s'
  | String "-" s' => negate (unsigned_literal s')
  | _ => unsigned_literal s
  end.

Fixpoint digits_of (fuel : nat) (n : Z) (acc : string) : string :=
  match fuel with
  | O => acc
  | S fuel' =>
      let acc' := String (ascii_of_nat (Z.to_nat (48 + n mod 10))) acc in
      if n / 10 =? 0 then acc' else digits_of fuel' (n / 10) acc'
  end.

(** The decimal digits of a natural number. *)
Definition decimal (n : Z) : string :=
  digits_of (S (Z.to_nat (Z.log2 n))) n EmptyString.

Definition ToString_dec (n : number) : string :=
  match n with
  | NaN => "NaN"
  | Infinity false => "Infinity"
  | Infinity true => "-Infinity"
  | Finite q =>
      let z := (Qnum q / Zpos (Qden q))%Z in
      if z <? 0 then String "-" (decimal (- z)) else decimal z
  end.

(** ** Vocabulary of the statements *)

(** The test of [add]: every episode finite, title and link truthy. *)
Definition valid (thread : Thread) : bool :=
  forallb isFinite (ep thread) && truthy (title thread) && truthy (link thread).

(** The last element of an array of numbers, [undefined] when it is empty. *)
Definition last_value (a : list number) : value :=
  match a with
  | [] => undefined
  | _ :: _ => Num (List.last a NaN)
  end.

(** [x] may stand immediately before [y]: [comparefn(x, y)] is not
    positive. *)
Definition in_order {A : Type} (gt : A -> A -> bool) (x y : A) : Prop :=
  gt x y = false.

(** The comparator never puts two elements each above the other. *)
Definition asymmetric {A : Type} (gt : A -> A -> bool) : Prop :=
  forall x y, gt x y = true -> gt y x = false.

(** The episodes are finite numbers, and there is at least one. *)
Definition has_episodes (th : Thread) : Prop :=
  forallb isFinite (ep th) = true /\ ep th <> [].

(** [ep[0]] is a finite number. *)
Definition has_first_episode (th : Thread) : Prop :=
  exists q, at_ (ep th) 0 = Num (Finite q).

(** [a] before [b] respects the descending order of [ep[0]].  Threads
    whose [ep[0]] is not a finite number are not constrained. *)
Definition descending (a b : Thread) : Prop :=
  match at_ (ep a) 0, at_ (ep b) 0 with
  | Num (Finite x), Num (Finite y) => (y <= x)%Q
  | _, _ => True
  end.


(** Both threads have a finite [ep[0]], and that of [a] is not below that
    of [b]. *)
Definition first_episodes_descend (a b : Thread) : Prop :=
  exists x y, at_ (ep a) 0 = Num (Finite x) /\ at_ (ep b) 0 = Num (Finite y)
              /\ (y <= x)%Q.

(** The array is sorted by descending [ep[0]]: every thread against every
    later one. *)
Definition sorted_desc (ths : list Thread) : Prop :=
  StronglySorted descending ths.

(** The value the spec gives to [latest]: the last element of the [ep] of
    the first thread, or -1 when there is no thread. *)
Definition expected_latest (this : Subscription.t) : value :=
  match Subscription.threads this with
  | [] => Num (Finite (-1))
  | top :: _ => last_value (ep top)
  end.

(** The added threads of a sequence of calls. *)
Definition added (cs : list call) : list Thread :=
  flat_map (fun c => match c with
                     | call_add thread => [thread]
                     | call_sort => []
                     end) cs.

(** The added threads that pass the test of [add]. *)
Definition accepted (cs : list call) : list Thread :=
  filter valid (added cs).

(** Some thread of the subscription has the value among its episodes. *)
Definition occurs (this : Subscription.t) (v : value) : bool :=
  existsb (fun th => includes (ep th) v) (Subscription.threads this).

(** The resolution of a range token [A..B] in the words of the spec: with
    [lo] the smaller and [hi] the larger of [A] and [B], the slice from the
    first thread whose [ep] contains [hi] through the first thread whose
    [ep] contains [lo]. *)
Definition range_as_specified (this : Subscription.t) (A B : Q)
  : list Thread :=
  let lo := if Qle_bool A B then A else B in
  let hi := if Qle_bool A B then B else A in
  let head := findIndex (fun th => includes (ep th) (Num (Finite hi)))
                (Subscription.threads this) in
  let tail := findIndex (fun th => includes (ep th) (Num (Finite lo)))
                (Subscription.threads this) in
  slice (Subscription.threads this) head (tail + 1).

(** How a call completes. *)
Inductive completion (A : Type) : Type :=
| returned (v : A)
| thrown (err : string).

Arguments returned {A} v.
Arguments thrown {A} err.

(** A call of [getThreads] as seen by the caller: its completion and the
    console calls it makes.  The body of the method has no [throw] and no
    console call, and no builtin it applies throws on a string selector
    and an array of threads. *)
Definition getThreads_call (Number : string -> number)
  (ToString : number -> string) (this : Subscription.t) (epstr : string)
  : completion (list Thread) * list console_call :=
  (returned (Subscription.getThreads Number ToString this epstr), []).

(** The caller is told of an error: an exception, or a console call. *)
Definition surfaces_error {A : Type}
  (r : completion A * list console_call) : Prop :=
  (exists err, fst r = thrown err) \/ snd r <> [].

(** [a] stands before [b] in the list. *)
Definition before {A : Type} (a b : A) (l : list A) : Prop :=
  exists l1 l2 l3, l = l1 ++ a :: l2 ++ b :: l3.

(** The threads produced by the tokens of a selector, token after token. *)
Definition produced (Number : string -> number) (ToString : number -> string)
  (this : Subscription.t) (epstr : string) : list Thread :=
  flat_map (Subscription.token_threads Number ToString this)
    (split_on "," epstr).

(** The collection after the elements [p] were offered to it: no
    duplicate, the members of [p], in the order of their first
    occurrence in [p]. *)
Definition collects (p : list Thread) (s : XSet.t) : Prop :=
  NoDup s
  /\ (forall x, In x s <-> In x p)
  /\ (forall a b, before a b s ->
        exists p1 p2, p = p1 ++ a :: p2 /\ ~ In a p1 /\ ~ In b p1).

(** The two arrays of sids have the same members. *)
Definition same_members (l l' : list (option string)) : Prop :=
  forall x, In x l <-> In x l'.

(** The [n]-th candidate of the chained rehash. *)
Fixpoint candidate (hash : string -> string -> string) (name_ keys : string)
  (n : nat) : string :=
  match n with
  | O => hash name_ keys
  | S n' => hash name_ (candidate hash name_ keys n')
  end.

(** ** The class [Database]: its subscriptions

    The methods of [Database] other than [download] and
    [isSupportedClient], which are above. *)

Module Db.


(** The fields [version] and [subscriptions]; the array holds references
    to subscription objects. *)
Record t : Type := mk {
  version : string;
  subscriptions : list loc
}.

(** The parameter of [add] and [remove]: an object whose
    [constructor.name] is ['Subscription'], or another object. *)
Inductive argument : Type :=
| a_Subscription (l : loc)
| not_a_Subscription.

(** The effect of a method: how it completes, the store and the database
    afterwards, and the console calls made. *)
Record outcome : Type := mkOutcome {
  completes : completion unit;
  heap : store;
  db : t;
  logged : list console_out
}.

Definition TypeError_message : string := "Parameter should be a Subscription.".

(** [this.subscriptions.map(s => s.sid)]. *)
Definition sids (h : store) (this : t) : list (option string) :=
  map (fun l => Subscription.sid (h l)) (subscriptions this).

(** [add(subscription)]; [None] when the loop of [generateSid] does not
    end within the fuel. *)
Definition add (hash : string -> string -> string) (fuel : nat)
  (subscription : argument) (h : store) (this : t) : option outcome :=
  match subscription with
  | not_a_Subscription => Some (mkOutcome (thrown TypeError_message) h this [])
  | a_Subscription l =>
      match Subscription.generateSid hash fuel (sids h this) (h l) with
      | None => None
      | Some s' =>
          Some (mkOutcome (returned tt)
                  (store_set h l s')
                  (mk (version this) (subscriptions this ++ [l]))
                  [console_log ("Add subscription{" ++ Subscription.name s'
                                ++ "} successfully.")%string])
      end
  end.

(** [elem.sid === subscription.sid] on sids that are strings or [null]. *)
Definition sid_equals (a b : option string) : bool :=
  match a, b with
  | Some x, Some y => String.eqb x y
  | None, None => true
  | _, _ => false
  end.

(** [remove(subscription)]. *)
Definition remove (subscription : argument) (h : store) (this : t)
  : outcome :=
  match subscription with
  | not_a_Subscription => mkOutcome (thrown TypeError_message) h this []
  | a_Subscription l =>
      let index :=
        findIndex (fun elem => sid_equals (Subscription.sid (h elem))
                                 (Subscription.sid (h l)))
          (subscriptions this) in
      if index >=? 0 then
        mkOutcome (returned tt) h
          (mk (version this) (splice1 (subscriptions this) index))
          [console_log ("Remove subscription{" ++ Subscription.name (h l)
                        ++ "} successfully.")%string]
      else mkOutcome (returned tt) h this []
  end.

(** The own fields of a subscription, as the [key] of [has] and [query]. *)
Inductive key : Type :=
| key_name
| key_keywords
| key_sid
| key_threads
| key_latest.

(** The primitive values, as the [value] of [has] and [query]. *)
Inductive primitive : Type :=
| prim_undefined
| prim_null
| prim_boolean (b : bool)
| prim_number (n : number)
| prim_string (s : string).

(** [===] on numbers: [NaN] equals nothing. *)
Definition number_equals (a b : number) : bool :=
  match a, b with
  | Infinity s, Infinity s' => Bool.eqb s s'
  | Finite x, Finite y => Qeq_bool x y
  | _, _ => false
  end.

(** [s[key] === value]: an array, the value of [keywords] and of
    [threads], is not equal to any primitive. *)
Definition field_equals (s : Subscription.t) (k : key) (v : primitive)
  : bool :=
  match k, v with
  | key_name, prim_string x => String.eqb (Subscription.name s) x
  | key_sid, prim_string x =>
      match Subscription.sid s with
      | Some y => String.eqb y x
      | None => false
      end
  | key_sid, prim_null =>
      match Subscription.sid s with
      | Some _ => false
      | None => true
      end
  | key_latest, prim_number n =>
      match Subscription.latest s with
      | Num m => number_equals m n
      | undefined => false
      end
  | key_latest, prim_undefined =>
      match Subscription.latest s with
      | Num _ => false
      | undefined => true
      end
  | _, _ => false
  end.

(** [this.subscriptions.filter(s => s[key] === value)]. *)
Definition results (h : store) (this : t) (k : key) (v : primitive)
  : list loc :=
  filter (fun l => field_equals (h l) k v) (subscriptions this).

(** [has(key, value)]. *)
Definition has (h : store) (this : t) (k : key) (v : primitive) : bool :=
  negb (Nat.eqb (List.length (results h this k v)) 0).

(** [query(key, value)]; [null] is [None]. *)
Definition query (h : store) (this : t) (k : key) (v : primitive)
  : option loc :=
  index (results h this k v) 0.

(** [comparefn(a, b) > 0] for [(a, b) => b.latest - a.latest]. *)
Definition latest_gt (h : store) (a b : loc) : bool :=
  positive (minus (Subscription.latest (h b)) (Subscription.latest (h a))).

(** [this.subscriptions.forEach(s => s.sort())]. *)
Definition sort_each (h : store) (ls : list loc) : store :=
  fold_left (fun h' l => store_set h' l (Subscription.sort (h' l))) ls h.

(** [sort()]: the store and the database afterwards. *)
Definition sort (h : store) (this : t) : store * t :=
  let h' := sort_each h (subscriptions this) in
  (h', mk (version this) (Array_sort (latest_gt h') (subscriptions this))).

End Db.

(** ** Vocabulary of the further properties *)

(** The character occurs in the string. *)
Fixpoint has_char (c : ascii) (s : string) : bool :=
  match s with
  | EmptyString => false
  | String c' s' => Ascii.eqb c' c || has_char c s'
  end.

(** [a <= b] in the order of strings by code unit. *)
Definition string_le (a b : string) : Prop := code_unit_compare a b <> Gt.

(** The field [latest] of both objects is a finite number, and that of
    [a] is not below that of [b]. *)
Definition latest_descend (h : store) (a b : loc) : Prop :=
  exists x y, Subscription.latest (h a) = Num (Finite x)
              /\ Subscription.latest (h b) = Num (Finite y) /\ (y <= x)%Q.

(** The subscription at [l] has this sid. *)
Definition has_sid (h : store) (s : option string) (l : loc) : bool :=
  Db.sid_equals (Subscription.sid (h l)) s.

(** Both threads have a finite [ep[0]], and that of [a] is not above that
    of [b]. *)
Definition first_episodes_ascend (a b : Thread) : Prop :=
  first_episodes_descend b a.

(** The threads behind the rows of a table, by their titles and joined
    episodes. *)
Definition shows (ToString : number -> string) (rows : list row)
  (ths : list Thread) : Prop :=
  rows = map (fun th => mkRow (join "," (map ToString (ep th))) (title th))
           ths.

(** ** Example values *)

Definition E1 : Thread := mkThread 1 "E1" "l1" [Finite 1].
Definition E2 : Thread := mkThread 2 "E2" "l2" [Finite 2].
Definition E3 : Thread := mkThread 3 "E3" "l3" [Finite 3].
Definition E10 : Thread := mkThread 10 "E10" "l10" [Finite 10].
Definition Bad : Thread := mkThread 11 "Bad" "l11" [NaN].
Definition Blank : Thread := mkThread 12 "Blank" "l12" [].

Definition show : Subscription.t := Subscription.new "Show,kw".

(** A subscription holding episodes 10 and 2, one holding 3, 2 and 1, one
    with an empty [ep] between two episodes, and one with the same thread
    added twice. *)
Definition show_10_2 : Subscription.t :=
  fst (run [call_add E10; call_add E2] show).

Definition show_3_2_1 : Subscription.t :=
  fst (run [call_add E1; call_add E2; call_add E3] show).

Definition show_blank : Subscription.t :=
  fst (run [call_add E1; call_add Blank; call_add E2] show).

Definition show_twice : Subscription.t :=
  fst (run [call_add E1; call_add E1] show).

(** A subscription whose second thread holds episodes 5 and 1. *)
Definition E4 : Thread := mkThread 4 "E4" "l4" [Finite 4].
Definition E5_1 : Thread := mkThread 5 "E5" "l5" [Finite 5; Finite 1].
Definition E6 : Thread := mkThread 6 "E6" "l6" [Finite 6].

Definition show_6_5_4_1 : Subscription.t :=
  fst (run [call_add E1; call_add E4; call_add E5_1; call_add E6] show).

(** The calls behind [show_blank], and a call of [sort] after them. *)
Definition calls_with_blank : list call :=
  [call_add E1; call_add Blank; call_add E2; call_sort].

(** A hash for the examples. *)
Definition example_hash (a b : string) : string := (a ++ "#" ++ b)%string.

(** The sids of a database that already holds a subscription with the name
    and keywords of [show], and one without a sid. *)
Definition example_sids : list (option string) := [Some "Show#kw"; None].

(** A configuration and an environment for the examples of [download]. *)
Definition example_config (key : string) : string :=
  if String.eqb key "client" then "deluge"
  else if String.eqb key "destination" then "/downloads"
  else "http://localhost:6800/jsonrpc".

Definition example_download : Thread -> Database.options
                              -> Database.download_result :=
  Database.download example_config "/app" (fun p => p)
    (fun th => ("thread:" ++ title th)%string)
    (fun d j => ("dest:" ++ d ++ ",jsonrpc:" ++ j)%string).

(** A store whose object 0 is a subscription 'Show,kw' with its sid and
    whose other objects are new subscriptions 'Show,kw', and a database
    that holds object 0. *)
Definition example_store : store :=
  fun l => match l with
           | O => Subscription.set_sid show (Some "Show#kw")
           | S _ => show
           end.

Definition example_db : Db.t := Db.mk "0.5.0" [0%nat].

(** A store whose object 0 holds episode 1 and whose other objects hold
    episodes 3, 2 and 1, and a database of the objects 0 and 1. *)
Definition shelf : store :=
  fun l => match l with
           | O => fst (run [call_add E1] show)
           | S _ => show_3_2_1
           end.

Definition shelf_db : Db.t := Db.mk "0.5.0" [0%nat; 1%nat].

(** * Properties *)

(** ** The sort *)

Section SortFacts.

Context {A : Type}.
Variable gt : A -> A -> bool.

Lemma insert_perm (x : A) (l : list A) : Permutation (insert gt x l) (x :: l).
Proof.
  induction l as [|y l IH]; simpl; [reflexivity|].
  destruct (gt y x && forallb (fun z => gt z x) l); [reflexivity|].
  rewrite IH. apply perm_swap.
Qed.

Lemma Array_sort_snoc (l : list A) (x : A) :
  Array_sort gt (l ++ [x]) = insert gt x (Array_sort gt l).
Proof. unfold Array_sort. now rewrite fold_left_app. Qed.

Lemma Array_sort_perm (l : list A) : Permutation (Array_sort gt l) l.
Proof.
  induction l as [|x l IH] using rev_ind; [reflexivity|].
  rewrite Array_sort_snoc, insert_perm, IH.
  apply Permutation_cons_append.
Qed.

Lemma insert_Sorted (x : A) (l : list A) :
  asymmetric gt -> Sorted (in_order gt) l ->
  Sorted (in_order gt) (insert gt x l).
Proof.
  intros Hasym. induction l as [|y l IH]; intros Hs; simpl.
  - repeat constructor.
  - destruct (gt y x && forallb (fun z => gt z x) l) eqn:E.
    + constructor; [exact Hs|]. constructor.
      apply andb_true_iff in E. apply Hasym, E.
    + apply Sorted_inv in Hs. destruct Hs as [Hs Hhd].
      constructor; [now apply IH|].
      destruct l as [|z l]; simpl.
      * constructor. unfold in_order.
        simpl in E. now rewrite andb_true_r in E.
      * destruct (gt z x && forallb (fun z0 => gt z0 x) l) eqn:E'.
        -- constructor. unfold in_order.
           simpl in E. rewrite E' in E. now rewrite andb_true_r in E.
        -- constructor. now inversion Hhd.
Qed.

Lemma Array_sort_Sorted (l : list A) :
  asymmetric gt -> Sorted (in_order gt) (Array_sort gt l).
Proof.
  intros Hasym. induction l as [|x l IH] using rev_ind.
  - constructor.
  - rewrite Array_sort_snoc. now apply insert_Sorted.
Qed.

Lemma insert_after_last (x y : A) (l : list A) :
  gt y x = false -> insert gt x (l ++ [y]) = l ++ [y; x].
Proof.
  intros Hyx. induction l as [|z l IH]; simpl.
  - now rewrite Hyx.
  - rewrite forallb_app. simpl. rewrite Hyx, andb_false_r, andb_false_r.
    now rewrite IH.
Qed.

Lemma Sorted_snoc_inv (R : A -> A -> Prop) (l : list A) (y x : A) :
  Sorted R (l ++ [y; x]) -> Sorted R (l ++ [y]) /\ R y x.
Proof.
  induction l as [|z l IH]; simpl; intros Hs.
  - apply Sorted_inv in Hs. destruct Hs as [_ Hhd].
    split; [repeat constructor | now inversion Hhd].
  - apply Sorted_inv in Hs. destruct Hs as [Hs Hhd].
    destruct (IH Hs) as [Hs' HR]. split; [|exact HR].
    constructor; [exact Hs'|].
    destruct l; simpl in *; inversion Hhd; now constructor.
Qed.

(** An array already in order is left as it is. *)
Lemma Array_sort_id (l : list A) :
  Sorted (in_order gt) l -> Array_sort gt l = l.
Proof.
  induction l as [|x l IH] using rev_ind; intros Hs; [reflexivity|].
  rewrite Array_sort_snoc.
  destruct l as [|y l _] using rev_ind.
  - reflexivity.
  - rewrite <- app_assoc in Hs. simpl in Hs.
    apply Sorted_snoc_inv in Hs. destruct Hs as [Hs Hyx].
    rewrite (IH Hs), insert_after_last by exact Hyx.
    now rewrite <- app_assoc.
Qed.

Lemma Array_sort_idem (l : list A) :
  asymmetric gt -> Array_sort gt (Array_sort gt l) = Array_sort gt l.
Proof. intros H. apply Array_sort_id. now apply Array_sort_Sorted. Qed.




Lemma Array_sort_nonempty (l : list A) : l <> [] -> Array_sort gt l <> [].
Proof.
  intros Hne Hs. apply Hne.
  apply Permutation_nil. rewrite <- Hs. apply Array_sort_perm.
Qed.

End SortFacts.

(** ** The comparator of [Subscription.sort] *)

Lemma positive_sub_Finite (x y : Q) :
  positive (number_sub (Finite y) (Finite x)) = true <-> (x < y)%Q.
Proof.
  simpl. rewrite (Qlt_minus_iff x y). unfold Qminus.
  rewrite (Qlt_alt 0 (y + - x)).
  destruct (0 ?= y + - x)%Q; split; congruence.
Qed.

Lemma positive_sub_asym (a b : number) :
  positive (number_sub b a) = true -> positive (number_sub a b) = false.
Proof.
  destruct a as [|s|x], b as [|s'|y]; simpl; try congruence.
  - destruct s, s'; simpl; congruence.
  - destruct s; simpl; congruence.
  - destruct s'; simpl; congruence.
  - intros H. apply (proj1 (positive_sub_Finite x y)) in H.
    apply not_true_is_false. intros H'.
    apply (proj1 (positive_sub_Finite y x)) in H'.
    exact (Qlt_irrefl x (Qlt_trans _ _ _ H H')).
Qed.

Lemma comparefn_gt_asym : asymmetric Subscription.comparefn_gt.
Proof.
  intros a b. unfold Subscription.comparefn_gt, minus.
  apply positive_sub_asym.
Qed.


(** ** Slices and the last element *)

Lemma skipn_all_but_last {A : Type} (l : list A) (x : A) :
  skipn (List.length l) (l ++ [x]) = [x].
Proof. induction l; simpl; auto. Qed.

Lemma slice_from_last {A : Type} (l : list A) (d : A) :
  slice_from l (-1) = match l with [] => [] | _ :: _ => [List.last l d] end.
Proof.
  destruct l as [|x l _] using rev_ind; [reflexivity|].
  rewrite last_last.
  replace (match l ++ [x] with [] => [] | _ :: _ => [x] end) with [x]
    by (now destruct l).
  unfold slice_from, slice. rewrite length_app. simpl List.length.
  replace (-1 <? 0) with true by reflexivity.
  set (n := List.length l).
  replace (Z.of_nat (n + 1) <? 0) with false by (symmetry; apply Z.ltb_ge; lia).
  replace (Z.to_nat (Z.max (Z.of_nat (n + 1) + -1) 0)) with n by lia.
  replace (Z.to_nat _) with 1%nat by lia.
  unfold n. rewrite skipn_all_but_last. reflexivity.
Qed.

Lemma at_slice_from_last (a : list number) :
  at_ (slice_from a (-1)) 0 = last_value a.
Proof.
  rewrite (slice_from_last a NaN). now destruct a.
Qed.

(** ** [Subscription.add] *)

Lemma add_invalid (thread : Thread) (this : Subscription.t) :
  valid thread = false ->
  Subscription.add thread this
  = (this, [console_error (Subscription.invalid_message this) thread]).
Proof. unfold Subscription.add, valid. now intros ->. Qed.

(** An accepted thread is pushed, the array sorted, and [latest] set to the
    last episode of the thread that is first after the sort. *)
Lemma add_valid (thread : Thread) (this : Subscription.t) :
  valid thread = true ->
  exists top rest,
    Array_sort Subscription.comparefn_gt (Subscription.threads this ++ [thread])
    = top :: rest /\
    Subscription.add thread this
    = (Subscription.mk (Subscription.name this) (Subscription.keywords this)
         (Subscription.sid this) (top :: rest) (last_value (ep top)), []).
Proof.
  intros Hv. unfold Subscription.add. fold (valid thread). rewrite Hv.
  unfold Subscription.sort. simpl.
  destruct (Array_sort Subscription.comparefn_gt
              (Subscription.threads this ++ [thread])) as [|top rest] eqn:E.
  - exfalso. revert E. apply Array_sort_nonempty.
    now destruct (Subscription.threads this).
  - exists top, rest. split; [reflexivity|].
    simpl. unfold Subscription.set_latest. simpl.
    now rewrite at_slice_from_last.
Qed.

(** C4. When the candidate thread has an episode that is not finite, or
    an empty title, or an empty link, [add] leaves the subscription as it
    was, so [threads] and [latest] are unchanged, and it returns normally
    after one call of [console.error] that carries the thread. *)
Theorem add_rejects_invalid_thread (this : Subscription.t) (thread : Thread) :
  (exists e, In e (ep thread) /\ isFinite e = false)
  \/ title thread = EmptyString \/ link thread = EmptyString ->
  let (this', out) := Subscription.add thread this in
  this' = this
  /\ Subscription.threads this' = Subscription.threads this
  /\ Subscription.latest this' = Subscription.latest this
  /\ out = [console_error (Subscription.invalid_message this) thread].
Proof.
  intros H. rewrite add_invalid; [now repeat split|].
  unfold valid. destruct H as [(e & Hin & He) | [Ht | Hl]].
  - destruct (forallb isFinite (ep thread)) eqn:E; [|reflexivity].
    rewrite forallb_forall in E. specialize (E e Hin). congruence.
  - rewrite Ht. simpl. now rewrite andb_false_r.
  - rewrite Hl. simpl. apply andb_false_r.
Qed.

Lemma add_rejects_invalid_thread_witness :
  ((exists e, In e (ep Bad) /\ isFinite e = false)
   \/ title Bad = EmptyString \/ link Bad = EmptyString)
  /\ let (this', out) := Subscription.add Bad show in
     this' = show
     /\ Subscription.threads this' = Subscription.threads show
     /\ Subscription.latest this' = Subscription.latest show
     /\ out = [console_error (Subscription.invalid_message show) Bad].
Proof.
  assert (H : (exists e, In e (ep Bad) /\ isFinite e = false)
              \/ title Bad = EmptyString \/ link Bad = EmptyString).
  { left. exists NaN. split; [now left | reflexivity]. }
  split; [exact H|].
  exact (add_rejects_invalid_thread show Bad H).
Defined.

(** C10. A thread with a non-empty title, a non-empty link and an empty
    [ep] passes the test of [add]: nothing is written to the console and
    the thread is in the array afterwards, which holds the former threads
    and this one.  When that thread is first in the array, [latest] is the
    last element of an empty array, that is [undefined]. *)
Theorem add_accepts_empty_ep (this : Subscription.t) (thread : Thread) :
  ep thread = [] ->
  title thread <> EmptyString ->
  link thread <> EmptyString ->
  let (this', out) := Subscription.add thread this in
  out = []
  /\ In thread (Subscription.threads this')
  /\ Permutation (Subscription.threads this')
       (Subscription.threads this ++ [thread])
  /\ (forall rest, Subscription.threads this' = thread :: rest ->
                   Subscription.latest this' = undefined).
Proof.
  intros Hep Ht Hl.
  assert (Hv : valid thread = true).
  { unfold valid. rewrite Hep. simpl.
    destruct (title thread); [congruence|].
    destruct (link thread); [congruence|]. reflexivity. }
  destruct (add_valid thread this Hv) as (top & rest & Hs & ->).
  simpl.
  assert (Hp : Permutation (top :: rest)
                 (Subscription.threads this ++ [thread])).
  { rewrite <- Hs. apply Array_sort_perm. }
  repeat split.
  - apply (Permutation_in _ (Permutation_sym Hp)).
    apply in_or_app. right. now left.
  - exact Hp.
  - intros rest' Heq. injection Heq as -> _. now rewrite Hep.
Qed.

Lemma add_accepts_empty_ep_witness :
  (ep Blank = [] /\ title Blank <> EmptyString /\ link Blank <> EmptyString)
  /\ let (this', out) := Subscription.add Blank show in
     out = []
     /\ In Blank (Subscription.threads this')
     /\ Permutation (Subscription.threads this')
          (Subscription.threads show ++ [Blank])
     /\ (forall rest, Subscription.threads this' = Blank :: rest ->
                      Subscription.latest this' = undefined).
Proof.
  assert (Ht : title Blank <> EmptyString) by discriminate.
  assert (Hl : link Blank <> EmptyString) by discriminate.
  split; [repeat split; assumption|].
  exact (add_accepts_empty_ep show Blank eq_refl Ht Hl).
Defined.

(** ** Sequences of calls *)

Lemma run_cons (c : call) (cs : list call) (this : Subscription.t) :
  fst (run (c :: cs) this) = fst (run cs (fst (step c this))).
Proof.
  simpl. destruct (step c this) as [this' out]. simpl.
  now destruct (run cs this').
Qed.

Lemma run_sequence (P : Subscription.t -> Prop) (cs : list call) :
  (forall c this, In c cs -> P this -> P (fst (step c this))) ->
  forall this, P this -> P (fst (run cs this)).
Proof.
  induction cs as [|c cs IH]; intros Hstep this HP; [exact HP|].
  rewrite run_cons. apply IH.
  - intros c' this' Hin. apply Hstep. now right.
  - apply Hstep; [now left | exact HP].
Qed.

(** The state that every call keeps: the array is a fixed point of the
    sort, and [latest] is taken from the first thread. *)
Lemma step_keeps_latest (c : call) (this : Subscription.t) :
  Sorted (in_order Subscription.comparefn_gt) (Subscription.threads this)
  /\ Subscription.latest this = expected_latest this ->
  Sorted (in_order Subscription.comparefn_gt)
    (Subscription.threads (fst (step c this)))
  /\ Subscription.latest (fst (step c this))
     = expected_latest (fst (step c this)).
Proof.
  intros [Hs Hl]. destruct c as [thread|]; simpl.
  - destruct (valid thread) eqn:Hv.
    + destruct (add_valid thread this Hv) as (top & rest & Hsort & ->).
      simpl. split; [|reflexivity].
      rewrite <- Hsort. apply Array_sort_Sorted, comparefn_gt_asym.
    + rewrite (add_invalid thread this Hv). simpl. now split.
  - unfold Subscription.sort, expected_latest. simpl.
    rewrite (Array_sort_id _ _ Hs). now split.
Qed.

Lemma run_with_cons (sorter : list Thread -> list Thread) (c : call)
  (cs : list call) (this : Subscription.t) :
  fst (run_with sorter (c :: cs) this)
  = fst (run_with sorter cs (fst (step_with sorter c this))).
Proof.
  simpl. destruct (step_with sorter c this) as [this' out]. simpl.
  now destruct (run_with sorter cs this').
Qed.

Lemma run_with_sequence (sorter : list Thread -> list Thread)
  (P : Subscription.t -> Prop) (cs : list call) :
  (forall c this, In c cs -> P this -> P (fst (step_with sorter c this))) ->
  forall this, P this -> P (fst (run_with sorter cs this)).
Proof.
  induction cs as [|c cs IH]; intros Hstep this HP; [exact HP|].
  rewrite run_with_cons. apply IH.
  - intros c' this' Hin. apply Hstep. now right.
  - apply Hstep; [now left | exact HP].
Qed.

(** With the insertion sort for the sort of the engine, the calls are those
    of the model. *)
Lemma run_with_Array_sort (cs : list call) (this : Subscription.t) :
  run_with (Array_sort Subscription.comparefn_gt) cs this = run cs this.
Proof.
  revert this. induction cs as [|c cs IH]; intros this; [reflexivity|].
  simpl.
  assert (E : step_with (Array_sort Subscription.comparefn_gt) c this
              = step c this) by (now destruct c).
  rewrite E. destruct (step c this) as [this' out]. now rewrite IH.
Qed.

Lemma add_with_invalid (sorter : list Thread -> list Thread)
  (thread : Thread) (this : Subscription.t) :
  valid thread = false ->
  Subscription.add_with sorter thread this
  = (this, [console_error (Subscription.invalid_message this) thread]).
Proof. unfold Subscription.add_with, valid. now intros ->. Qed.

Lemma add_with_valid (sorter : list Thread -> list Thread)
  (thread : Thread) (this : Subscription.t) :
  (forall l, Permutation (sorter l) l) ->
  valid thread = true ->
  exists top rest,
    sorter (Subscription.threads this ++ [thread]) = top :: rest /\
    Subscription.add_with sorter thread this
    = (Subscription.mk (Subscription.name this) (Subscription.keywords this)
         (Subscription.sid this) (top :: rest) (last_value (ep top)), []).
Proof.
  intros Hperm Hv. unfold Subscription.add_with. fold (valid thread).
  rewrite Hv. unfold Subscription.sort_with. simpl.
  destruct (sorter (Subscription.threads this ++ [thread]))
    as [|top rest] eqn:E.
  - exfalso. pose proof (Hperm (Subscription.threads this ++ [thread])) as H.
    rewrite E in H. apply Permutation_nil in H.
    now destruct (Subscription.threads this).
  - exists top, rest. split; [reflexivity|].
    simpl. unfold Subscription.set_latest. simpl.
    now rewrite at_slice_from_last.
Qed.

Lemma In_accepted (cs : list call) (thread : Thread) :
  In (call_add thread) cs -> valid thread = true -> In thread (accepted cs).
Proof.
  intros Hin Hv. unfold accepted. apply filter_In. split; [|exact Hv].
  unfold added. apply in_flat_map. exists (call_add thread).
  split; [exact Hin | now left].
Qed.

(** C6. Starting from a subscription without threads and with [latest]
    -1, as [new Subscription(subscribable)] is, after any sequence of calls
    of [add] and [sort] the field [latest] is the last element of the [ep]
    of the first thread, and -1 when there is no thread.  (The last element
    of an empty [ep] is [undefined], as [ep.slice(-1)[0]] is.)

    The sort of the engine is any function that returns the elements it
    is given, and that changes nothing when it is applied again to an
    array it returned.  On arrays of threads that all have a first episode
    the comparator is consistent and every stable sort, as
    [Array.prototype.sort] is, is such a function; once a thread with an
    empty [ep] has been accepted the order is the engine's own, and the
    second property is what the statement asks of it. *)
Theorem latest_is_last_episode_of_top (sorter : list Thread -> list Thread)
  (this0 : Subscription.t) (cs : list call) :
  (forall l, Permutation (sorter l) l) ->
  (forall l, incl l (accepted cs) -> sorter (sorter l) = sorter l) ->
  Subscription.threads this0 = [] ->
  Subscription.latest this0 = Num (Finite (-1)) ->
  let this := fst (run_with sorter cs this0) in
  Subscription.latest this
  = match Subscription.threads this with
    | [] => Num (Finite (-1))
    | top :: _ => last_value (ep top)
    end.
Proof.
  intros Hperm Hidem Hempty Hlatest this.
  change (Subscription.latest this = expected_latest this).
  set (P := fun s : Subscription.t =>
              (sorter (Subscription.threads s) = Subscription.threads s
               /\ incl (Subscription.threads s) (accepted cs))
              /\ Subscription.latest s = expected_latest s).
  assert (H : P this).
  { apply run_with_sequence.
    - intros c s Hin [[Hfix Hincl] Hl]. destruct c as [thread|]; simpl.
      + destruct (valid thread) eqn:Hv.
        * destruct (add_with_valid sorter thread s Hperm Hv)
            as (top & rest & Hsort & ->).
          assert (Hincl' : incl (Subscription.threads s ++ [thread])
                             (accepted cs)).
          { apply incl_app; [exact Hincl|].
            intros x [<- | []]. now apply In_accepted. }
          unfold P, expected_latest. simpl. rewrite <- Hsort.
          repeat split.
          -- now apply Hidem.
          -- intros x Hx. apply Hincl'.
             exact (Permutation_in _ (Hperm _) Hx).
        * rewrite (add_with_invalid sorter thread s Hv). simpl.
          now repeat split.
      + unfold P, expected_latest, Subscription.sort_with. simpl.
        rewrite Hfix. now repeat split.
    - unfold P, expected_latest. rewrite Hempty, Hlatest. repeat split.
      + apply Permutation_nil, Permutation_sym, Hperm.
      + intros x []. }
  exact (proj2 H).
Qed.

Lemma latest_is_last_episode_of_top_witness :
  ((forall l, Permutation (Array_sort Subscription.comparefn_gt l) l)
   /\ (forall l, incl l (accepted calls_with_blank) ->
                 Array_sort Subscription.comparefn_gt
                   (Array_sort Subscription.comparefn_gt l)
                 = Array_sort Subscription.comparefn_gt l)
   /\ Subscription.threads show = []
   /\ Subscription.latest show = Num (Finite (-1)))
  /\ Subscription.threads
       (fst (run_with (Array_sort Subscription.comparefn_gt)
               calls_with_blank show))
     = [E1; Blank; E2]
  /\ Subscription.latest
       (fst (run_with (Array_sort Subscription.comparefn_gt)
               calls_with_blank show))
     = last_value (ep E1).
Proof.
  assert (H1 : forall l, Permutation (Array_sort Subscription.comparefn_gt l) l)
    by (intros l; apply Array_sort_perm).
  assert (H2 : forall l, incl l (accepted calls_with_blank) ->
                         Array_sort Subscription.comparefn_gt
                           (Array_sort Subscription.comparefn_gt l)
                         = Array_sort Subscription.comparefn_gt l)
    by (intros l _; apply Array_sort_idem, comparefn_gt_asym).
  split; [now repeat split|]. split; [reflexivity|].
  exact (latest_is_last_episode_of_top (Array_sort Subscription.comparefn_gt)
           show calls_with_blank H1 H2 eq_refl eq_refl).
Defined.

(** X9. When no added thread has an empty [ep], [latest] is a finite
    number. *)
Lemma latest_is_a_number (subscribable : string) (cs : list call) :
  (forall thread, In thread (added cs) -> ep thread <> []) ->
  exists q,
    Subscription.latest (fst (run cs (Subscription.new subscribable)))
    = Num (Finite q).
Proof.
  intros Hne.
  set (P := fun s : Subscription.t =>
              (Sorted (in_order Subscription.comparefn_gt)
                 (Subscription.threads s)
               /\ Subscription.latest s = expected_latest s)
              /\ Forall has_episodes (Subscription.threads s)).
  assert (H : P (fst (run cs (Subscription.new subscribable)))).
  { apply run_sequence.
    - intros c s Hin [Hl Hf]. split; [now apply step_keeps_latest|].
      destruct c as [thread|]; simpl.
      + destruct (valid thread) eqn:Hv.
        * destruct (add_valid thread s Hv) as (top & rest & Hsort & ->).
          simpl. rewrite <- Hsort.
          apply (Permutation_Forall
                   (Permutation_sym (Array_sort_perm _ _))).
          apply Forall_app. split; [exact Hf|].
          constructor; [|constructor]. split.
          -- unfold valid in Hv. apply andb_true_iff in Hv.
             destruct Hv as [Hv _]. apply andb_true_iff in Hv. apply Hv.
          -- apply Hne. unfold added. apply in_flat_map.
             exists (call_add thread). split; [exact Hin | now left].
        * now rewrite (add_invalid thread s Hv).
      + apply (Permutation_Forall
                 (Permutation_sym (Array_sort_perm _ _))). exact Hf.
    - repeat split; constructor. }
  destruct H as [[_ Hl] Hf]. rewrite Hl. unfold expected_latest.
  destruct (Subscription.threads _) as [|top rest]; [now exists (-1)%Q|].
  apply Forall_cons_iff in Hf. destruct Hf as [[Hfin Hnonempty] _].
  destruct (exists_last Hnonempty) as (l' & n & E).
  unfold last_value. rewrite E in *. rewrite last_last.
  rewrite forallb_app in Hfin. apply andb_true_iff in Hfin.
  destruct Hfin as [_ Hn]. simpl in Hn.
  destruct n as [| |q]; try discriminate.
  exists q. now destruct l'.
Qed.

(** ** The order of the threads *)

Lemma in_order_descend (a b : Thread) :
  has_first_episode a -> has_first_episode b ->
  in_order Subscription.comparefn_gt a b -> first_episodes_descend a b.
Proof.
  intros [x Hx] [y Hy] H. exists x, y. repeat split; try assumption.
  unfold in_order, Subscription.comparefn_gt, minus in H.
  rewrite Hx, Hy in H. simpl ToNumber in H.
  apply Qnot_lt_le. intros Hlt.
  apply (proj2 (positive_sub_Finite x y)) in Hlt. congruence.
Qed.

Lemma first_episodes_descend_trans (a b c : Thread) :
  first_episodes_descend a b -> first_episodes_descend b c ->
  first_episodes_descend a c.
Proof.
  intros (x & y & Hx & Hy & Hxy) (y' & z & Hy' & Hz & Hyz).
  exists x, z. repeat split; try assumption.
  rewrite Hy in Hy'. injection Hy' as <-.
  exact (Qle_trans _ _ _ Hyz Hxy).
Qed.

Lemma first_episodes_descend_descending (a b : Thread) :
  first_episodes_descend a b -> descending a b.
Proof.
  intros (x & y & Hx & Hy & Hxy). unfold descending. now rewrite Hx, Hy.
Qed.

Lemma Sorted_in_order_descend (l : list Thread) :
  Forall has_first_episode l ->
  Sorted (in_order Subscription.comparefn_gt) l ->
  Sorted first_episodes_descend l.
Proof.
  induction l as [|a l IH]; intros Hf Hs; [constructor|].
  apply Sorted_inv in Hs. destruct Hs as [Hs Hhd].
  apply Forall_cons_iff in Hf. destruct Hf as [Ha Hf].
  constructor; [now apply IH|].
  destruct Hhd as [|b l' Hab]; constructor.
  apply in_order_descend; try assumption.
  now apply Forall_cons_iff in Hf.
Qed.

Lemma StronglySorted_descending (l : list Thread) :
  StronglySorted first_episodes_descend l -> sorted_desc l.
Proof.
  induction 1 as [|a l _ IH Hall]; constructor; [exact IH|].
  revert Hall. apply Forall_impl. apply first_episodes_descend_descending.
Qed.

Lemma valid_first_episode (thread : Thread) :
  valid thread = true -> ep thread <> [] -> has_first_episode thread.
Proof.
  unfold valid, has_first_episode. intros Hv Hne.
  destruct (ep thread) as [|n rest]; [congruence|].
  simpl in Hv. destruct n as [| |q]; simpl in Hv; try discriminate.
  now exists q.
Qed.

Lemma step_keeps_order (c : call) (this : Subscription.t) :
  (forall thread, c = call_add thread -> ep thread <> []) ->
  Forall has_first_episode (Subscription.threads this)
  /\ Sorted (in_order Subscription.comparefn_gt) (Subscription.threads this) ->
  Forall has_first_episode (Subscription.threads (fst (step c this)))
  /\ Sorted (in_order Subscription.comparefn_gt)
       (Subscription.threads (fst (step c this))).
Proof.
  intros Hne [Hf Hs]. destruct c as [thread|]; simpl.
  - destruct (valid thread) eqn:Hv.
    + destruct (add_valid thread this Hv) as (top & rest & Hsort & ->).
      simpl. rewrite <- Hsort. split.
      * apply (Permutation_Forall
                 (Permutation_sym (Array_sort_perm _ _))).
        apply Forall_app. split; [exact Hf|].
        constructor; [|constructor].
        apply valid_first_episode; [exact Hv | now apply Hne].
      * apply Array_sort_Sorted, comparefn_gt_asym.
    + rewrite (add_invalid thread this Hv). simpl. now split.
  - rewrite (Array_sort_id _ _ Hs). now split.
Qed.

(** X8. When no added thread has an empty [ep], every thread of the array has
    a finite [ep[0]] and the array is sorted by descending [ep[0]]. *)
Lemma threads_sorted_when_ep_nonempty (subscribable : string)
  (cs : list call) :
  (forall thread, In thread (added cs) -> ep thread <> []) ->
  let this := fst (run cs (Subscription.new subscribable)) in
  Forall has_first_episode (Subscription.threads this)
  /\ Sorted first_episodes_descend (Subscription.threads this)
  /\ sorted_desc (Subscription.threads this).
Proof.
  intros Hne this.
  assert (H : Forall has_first_episode (Subscription.threads this)
              /\ Sorted (in_order Subscription.comparefn_gt)
                   (Subscription.threads this)).
  { refine (run_sequence
              (fun s => Forall has_first_episode (Subscription.threads s)
                        /\ Sorted (in_order Subscription.comparefn_gt)
                             (Subscription.threads s)) cs _ _ _).
    - intros c s Hin. apply step_keeps_order.
      intros thread ->. apply Hne. unfold added.
      apply in_flat_map. exists (call_add thread). split; [exact Hin | now left].
    - split; constructor. }
  destruct H as [Hf Hs].
  assert (Hd := Sorted_in_order_descend _ Hf Hs).
  repeat split; try assumption.
  apply StronglySorted_descending, Sorted_StronglySorted; [|exact Hd].
  intros a b c. apply first_episodes_descend_trans.
Qed.

(** C5. The calls [add(E1)], [add(Blank)], [add(E2)] on a new
    subscription, where [Blank] has an empty [ep]: the thread is accepted,
    every comparison with it yields [NaN], and the array is left as
    [[E1, Blank, E2]], episode 1 before episode 2, with [latest] still 1;
    it is not sorted by descending [ep[0]]. *)
Theorem blank_thread_breaks_order :
  Subscription.threads show_blank = [E1; Blank; E2]
  /\ Subscription.latest show_blank = Num (Finite 1)
  /\ ~ sorted_desc (Subscription.threads show_blank).
Proof.
  assert (E : Subscription.threads show_blank = [E1; Blank; E2])
    by (vm_compute; reflexivity).
  split; [exact E|]. split; [vm_compute; reflexivity|].
  rewrite E. intros Hs.
  apply StronglySorted_inv in Hs. destruct Hs as [_ Hall].
  apply Forall_cons_iff in Hall. destruct Hall as [_ Hall].
  apply Forall_cons_iff in Hall. destruct Hall as [H12 _].
  unfold descending in H12. simpl in H12.
  revert H12. unfold Qle. simpl. lia.
Qed.

(** ** [generateSid] *)

Section SidFacts.

Variable hash : string -> string -> string.

Lemma existed_has_In (existedSids : list (option string)) (s : string) :
  Subscription.existed_has existedSids s = true <-> In (Some s) existedSids.
Proof.
  unfold Subscription.existed_has. rewrite existsb_exists. split.
  - intros ([s'|] & Hin & Heq); [|discriminate].
    apply String.eqb_eq in Heq. now subst.
  - intros Hin. exists (Some s). split; [exact Hin | apply String.eqb_refl].
Qed.

Lemma existed_has_members (l l' : list (option string)) (s : string) :
  same_members l l' ->
  Subscription.existed_has l s = Subscription.existed_has l' s.
Proof.
  intros Hm. apply eq_true_iff_eq.
  rewrite !existed_has_In. apply Hm.
Qed.

Lemma rehash_fresh (fuel : nat) (existedSids : list (option string))
  (name_ sid0 s : string) :
  Subscription.rehash hash fuel existedSids name_ sid0 = Some s ->
  Subscription.existed_has existedSids s = false.
Proof.
  revert sid0.
  induction fuel as [|fuel IH]; intros sid0; simpl; [discriminate|].
  destruct (Subscription.existed_has existedSids sid0) eqn:E.
  - apply IH.
  - now intros [= <-].
Qed.

(** The result depends neither on the fuel, once it suffices, nor on more
    of the array of sids than its members. *)
Lemma rehash_deterministic (fuel fuel' : nat)
  (existedSids existedSids' : list (option string)) (name_ sid0 s s' : string) :
  same_members existedSids existedSids' ->
  Subscription.rehash hash fuel existedSids name_ sid0 = Some s ->
  Subscription.rehash hash fuel' existedSids' name_ sid0 = Some s' ->
  s = s'.
Proof.
  intros Hm. revert fuel' sid0.
  induction fuel as [|fuel IH]; intros fuel' sid0; simpl; [discriminate|].
  destruct fuel' as [|fuel']; simpl; [discriminate|].
  rewrite <- (existed_has_members _ _ sid0 Hm).
  destruct (Subscription.existed_has existedSids sid0).
  - apply IH.
  - congruence.
Qed.

(** The loop ends as soon as a candidate of the chain is not an existing
    sid. *)
Lemma rehash_terminates (existedSids : list (option string))
  (name_ keys : string) (n : nat) :
  Subscription.existed_has existedSids (candidate hash name_ keys n) = false ->
  exists s, Subscription.rehash hash (S n) existedSids name_
              (hash name_ keys) = Some s.
Proof.
  assert (G : forall k m,
             Subscription.existed_has existedSids
               (candidate hash name_ keys (m + k)) = false ->
             exists s, Subscription.rehash hash (S k) existedSids name_
                         (candidate hash name_ keys m) = Some s).
  { induction k as [|k IH]; intros m Hfree.
    - rewrite Nat.add_0_r in Hfree. simpl. rewrite Hfree. eauto.
    - change (Subscription.rehash hash (S (S k)) existedSids name_
                (candidate hash name_ keys m))
        with (if Subscription.existed_has existedSids
                   (candidate hash name_ keys m)
              then Subscription.rehash hash (S k) existedSids name_
                     (candidate hash name_ keys (S m))
              else Some (candidate hash name_ keys m)).
      destruct (Subscription.existed_has existedSids
                  (candidate hash name_ keys m)); [|eauto].
      apply IH. now rewrite Nat.add_succ_l, <- Nat.add_succ_r. }
  intros Hfree. apply (G n 0%nat). exact Hfree.
Qed.

(** C7. When the loop of [generateSid] ends, the sid it assigns is not
    a member of the existing sids, and it is determined by the name, the
    (sorted) keywords and the set of existing sids: another subscription
    with the same name and keywords, given an array with the same members,
    is assigned the same sid, whatever the fuel. *)
Theorem generateSid_deterministic_and_fresh (fuel : nat)
  (existedSids : list (option string)) (this this' : Subscription.t) :
  Subscription.generateSid hash fuel existedSids this = Some this' ->
  (exists s, Subscription.sid this' = Some s /\ ~ In (Some s) existedSids)
  /\ (forall fuel2 existedSids2 other other',
        Subscription.name other = Subscription.name this ->
        Subscription.keywords other = Subscription.keywords this ->
        same_members existedSids existedSids2 ->
        Subscription.generateSid hash fuel2 existedSids2 other = Some other' ->
        Subscription.sid other' = Subscription.sid this').
Proof.
  unfold Subscription.generateSid.
  destruct (Subscription.rehash hash fuel existedSids (Subscription.name this)
              (hash (Subscription.name this)
                 (join "," (Subscription.keywords this)))) as [s|] eqn:E;
    [|discriminate].
  intros [= <-]. split.
  - exists s. split; [reflexivity|].
    rewrite <- existed_has_In. apply rehash_fresh in E. congruence.
  - intros fuel2 existedSids2 other other' Hn Hk Hm. rewrite Hn, Hk.
    destruct (Subscription.rehash hash fuel2 existedSids2
                (Subscription.name this)
                (hash (Subscription.name this)
                   (join "," (Subscription.keywords this)))) as [s'|] eqn:E';
      [|discriminate].
    intros [= <-]. simpl. f_equal. symmetry.
    exact (rehash_deterministic _ _ _ _ _ _ _ _ Hm E E').
Qed.

End SidFacts.

Lemma generateSid_deterministic_and_fresh_witness :
  Subscription.generateSid example_hash 5 example_sids show
  = Some (Subscription.set_sid show (Some "Show#Show#kw"))
  /\ (exists s, Some "Show#Show#kw" = Some s /\ ~ In (Some s) example_sids).
Proof.
  assert (H : Subscription.generateSid example_hash 5 example_sids show
              = Some (Subscription.set_sid show (Some "Show#Show#kw")))
    by reflexivity.
  split; [exact H|].
  exact (proj1 (generateSid_deterministic_and_fresh example_hash 5
                  example_sids show _ H)).
Defined.

(** ** The collection of [getThreads] *)

Lemma XSet_has_In (s : XSet.t) (x : Thread) : XSet.has s x = true <-> In x s.
Proof.
  unfold XSet.has. destruct (in_dec Thread_eq_dec x s); split;
    intros; try assumption; try reflexivity; try discriminate; contradiction.
Qed.

Lemma XSet_add_In (s : XSet.t) (x y : Thread) :
  In y (XSet.add s x) <-> In y s \/ y = x.
Proof.
  unfold XSet.add. destruct (XSet.has s x) eqn:E.
  - apply XSet_has_In in E. split; [now left|]. intros [H | ->]; assumption.
  - rewrite in_app_iff. simpl. split.
    + intros [H | [H | []]]; [now left | now right].
    + intros [H | H]; [now left | right; now left].
Qed.

Lemma XSet_add_NoDup (s : XSet.t) (x : Thread) :
  NoDup s -> NoDup (XSet.add s x).
Proof.
  intros Hnd. unfold XSet.add. destruct (XSet.has s x) eqn:E; [exact Hnd|].
  apply NoDup_app; [exact Hnd | repeat constructor; intros [] |].
  intros y Hy [<- | []].
  apply XSet_has_In in Hy. congruence.
Qed.

Lemma in_split_first (x : Thread) (l : list Thread) :
  In x l -> exists l1 l2, l = l1 ++ x :: l2 /\ ~ In x l1.
Proof.
  induction l as [|y l IH]; intros Hin; [destruct Hin|].
  destruct (Thread_eq_dec y x) as [-> | Hne].
  - exists [], l. split; [reflexivity | intros []].
  - destruct Hin as [-> | Hin]; [congruence|].
    destruct (IH Hin) as (l1 & l2 & -> & Hn).
    exists (y :: l1), l2. split; [reflexivity|].
    intros [H | H]; [congruence | contradiction].
Qed.

Lemma before_snoc {A : Type} (a b x : A) (l : list A) :
  before a b (l ++ [x]) -> before a b l \/ (In a l /\ b = x).
Proof.
  intros (l1 & l2 & l3 & E).
  destruct l3 as [|y l3 _] using rev_ind.
  - right.
    replace (l1 ++ a :: l2 ++ [b]) with ((l1 ++ a :: l2) ++ [b]) in E
      by (now rewrite <- app_assoc).
    apply app_inj_tail in E. destruct E as [-> ->].
    split; [|reflexivity]. apply in_or_app. right. now left.
  - left. exists l1, l2, l3.
    replace (l1 ++ a :: l2 ++ b :: l3 ++ [y])
      with ((l1 ++ a :: l2 ++ b :: l3) ++ [y]) in E
      by (rewrite <- app_assoc; simpl; rewrite <- app_assoc; reflexivity).
    apply app_inj_tail in E. now destruct E as [-> _].
Qed.

Lemma collects_add (p : list Thread) (s : XSet.t) (x : Thread) :
  collects p s -> collects (p ++ [x]) (XSet.add s x).
Proof.
  intros (Hnd & Hmem & Hord). split; [now apply XSet_add_NoDup|]. split.
  - intros y. rewrite XSet_add_In, in_app_iff, Hmem. simpl. intuition.
  - assert (Hold : forall a b, before a b s ->
              exists p1 p2, p ++ [x] = p1 ++ a :: p2
                            /\ ~ In a p1 /\ ~ In b p1).
    { intros a b Hab. destruct (Hord a b Hab) as (p1 & p2 & -> & Ha & Hb).
      exists p1, (p2 ++ [x]). split; [|now split].
      now rewrite <- app_assoc. }
    unfold XSet.add. destruct (XSet.has s x) eqn:E; [exact Hold|].
    intros a b Hab. apply before_snoc in Hab.
    destruct Hab as [Hab | [Ha ->]]; [now apply Hold|].
    apply Hmem in Ha. destruct (in_split_first a p Ha) as (p1 & p2 & -> & Hn).
    exists p1, (p2 ++ [x]). split; [now rewrite <- app_assoc|].
    split; [exact Hn|]. intros Hx.
    assert (Hin : In x s).
    { apply Hmem. apply in_or_app. now left. }
    apply XSet_has_In in Hin. congruence.
Qed.

Lemma collects_union (xs p : list Thread) (s : XSet.t) :
  collects p s -> collects (p ++ xs) (XSet.union s xs).
Proof.
  revert p s. induction xs as [|x xs IH]; intros p s H; simpl.
  - now rewrite app_nil_r.
  - replace (p ++ x :: xs) with ((p ++ [x]) ++ xs)
      by (now rewrite <- app_assoc).
    apply IH. now apply collects_add.
Qed.

Lemma collects_tokens (f : string -> list Thread) (eps : list string)
  (p : list Thread) (s : XSet.t) :
  collects p s ->
  collects (p ++ flat_map f eps)
    (fold_left (fun collection ep_ => XSet.union collection (f ep_)) eps s).
Proof.
  revert p s. induction eps as [|e eps IH]; intros p s H; simpl.
  - now rewrite app_nil_r.
  - rewrite app_assoc. apply IH. now apply collects_union.
Qed.

Lemma getThreads_tokens (Number : string -> number)
  (ToString : number -> string) (this : Subscription.t) (epstr : string) :
  epstr <> EmptyString -> epstr <> "all" ->
  Subscription.getThreads Number ToString this epstr
  = fold_left (fun collection ep_ =>
                 XSet.union collection
                   (Subscription.token_threads Number ToString this ep_))
      (split_on "," epstr) XSet.empty.
Proof.
  intros Hne Hall. unfold Subscription.getThreads.
  destruct epstr as [|c epstr]; [congruence|]. simpl truthy. simpl negb.
  destruct (String.eqb_spec (String c epstr) "all"); [congruence|].
  reflexivity.
Qed.

(** C9. [getThreads("all")] and [getThreads("")] return the array
    [threads] itself, all of it and in its order. *)
Theorem getThreads_all_or_empty (Number : string -> number)
  (ToString : number -> string) (this : Subscription.t) :
  Subscription.getThreads Number ToString this "all"
  = Subscription.threads this
  /\ Subscription.getThreads Number ToString this EmptyString
     = Subscription.threads this.
Proof. split; reflexivity. Qed.

(** C8, as stated, fails on the selector ["all"]: after the same thread
    was added twice, [getThreads("all")] returns the array with the thread
    twice. *)
Lemma getThreads_all_keeps_duplicates :
  Subscription.getThreads Number_dec ToString_dec show_twice "all" = [E1; E1]
  /\ ~ NoDup (Subscription.getThreads Number_dec ToString_dec show_twice "all").
Proof.
  assert (E : Subscription.getThreads Number_dec ToString_dec show_twice "all"
              = [E1; E1]) by (vm_compute; reflexivity).
  split; [exact E|]. rewrite E. intros H.
  apply NoDup_cons_iff in H. apply (proj1 H). now left.
Qed.

(** C8, amended. For a selector other than the empty string and
    ["all"], the result of [getThreads] holds no thread twice, its members
    are the threads produced by the tokens, and they stand in the order in
    which each was first produced, the tokens being taken from left to
    right: when [a] stands before [b] in the result, [a] was produced at a
    place before which neither [a] nor [b] had been produced. *)
Theorem getThreads_union_in_first_order (Number : string -> number)
  (ToString : number -> string) (this : Subscription.t) (epstr : string) :
  epstr <> EmptyString -> epstr <> "all" ->
  NoDup (Subscription.getThreads Number ToString this epstr)
  /\ (forall th, In th (Subscription.getThreads Number ToString this epstr)
                 <-> In th (produced Number ToString this epstr))
  /\ (forall a b,
        before a b (Subscription.getThreads Number ToString this epstr) ->
        exists p1 p2, produced Number ToString this epstr = p1 ++ a :: p2
                      /\ ~ In a p1 /\ ~ In b p1).
Proof.
  intros Hne Hall. rewrite (getThreads_tokens _ _ _ _ Hne Hall).
  apply (collects_tokens
           (Subscription.token_threads Number ToString this)
           (split_on "," epstr) [] XSet.empty).
  split; [constructor|]. split.
  - intros x. reflexivity.
  - intros a b (l1 & l2 & l3 & E). now destruct l1.
Qed.

(** ** Range tokens *)

Lemma findIndex_absent {A : Type} (p : A -> bool) (l : list A) :
  existsb p l = false -> findIndex p l = -1.
Proof.
  induction l as [|x l IH]; simpl; [reflexivity|].
  destruct (p x); simpl; [discriminate|].
  intros H. now rewrite (IH H).
Qed.

Lemma findIndex_present {A : Type} (p : A -> bool) (l : list A) :
  existsb p l = true -> 0 <= findIndex p l < Z.of_nat (List.length l).
Proof.
  induction l as [|x l IH]; simpl List.length; simpl; [discriminate|].
  destruct (p x); simpl; [lia|].
  intros H. specialize (IH H).
  destruct (findIndex p l <? 0) eqn:E; [apply Z.ltb_lt in E|]; lia.
Qed.

Lemma slice_to_0 {A : Type} (l : list A) (start : Z) : slice l start 0 = [].
Proof.
  unfold slice. replace (0 <? 0) with false by reflexivity.
  set (len := Z.of_nat (List.length l)).
  set (k := if start <? 0 then Z.max (len + start) 0 else Z.min start len).
  assert (0 <= k) by (unfold k, len; destruct (start <? 0) eqn:E;
                      [|apply Z.ltb_ge in E]; lia).
  assert (0 <= len) by (unfold len; lia).
  replace (Z.to_nat (Z.max (Z.min 0 len - k) 0)) with 0%nat by lia.
  reflexivity.
Qed.

Lemma skipn_last {A : Type} (l : list A) (d : A) :
  l <> [] -> skipn (List.length l - 1) l = [List.last l d].
Proof.
  destruct l as [|x l _] using rev_ind; [congruence|]. intros _.
  rewrite last_last, length_app. simpl List.length.
  replace (List.length l + 1 - 1)%nat with (List.length l) by lia.
  apply skipn_all_but_last.
Qed.

Lemma slice_from_minus_1 {A : Type} (l : list A) (d : A) (tail : Z) :
  0 <= tail < Z.of_nat (List.length l) ->
  slice l (-1) (tail + 1)
  = if tail + 1 =? Z.of_nat (List.length l) then [List.last l d] else [].
Proof.
  intros Hb. unfold slice. replace (-1 <? 0) with true by reflexivity.
  replace (tail + 1 <? 0) with false by (symmetry; apply Z.ltb_ge; lia).
  set (len := Z.of_nat (List.length l)) in *.
  replace (Z.to_nat (Z.max (len + -1) 0)) with (List.length l - 1)%nat
    by (unfold len; lia).
  assert (Hne : l <> []) by (intros ->; simpl in len; lia).
  rewrite (skipn_last l d Hne).
  destruct (tail + 1 =? len) eqn:E.
  - apply Z.eqb_eq in E.
    replace (Z.to_nat _) with 1%nat by lia. reflexivity.
  - apply Z.eqb_neq in E.
    replace (Z.to_nat _) with 0%nat by lia. reflexivity.
Qed.

(** The bounds of a token [a..b] are ordered by the strings of the two
    numbers, not by the numbers. *)
Lemma range_bounds_by_string_order (Number : string -> number)
  (ToString : number -> string) (ep_ a b : string) :
  split_dots ep_ = [a; b] ->
  Subscription.range_bounds Number ToString ep_
  = if String.ltb (ToString (Number b)) (ToString (Number a))
    then (Num (Number b), Num (Number a))
    else (Num (Number a), Num (Number b)).
Proof.
  intros E. unfold Subscription.range_bounds. rewrite E.
  unfold Array_sort. simpl.
  unfold Subscription.default_gt, string_gt.
  now destruct (String.ltb (ToString (Number b)) (ToString (Number a))).
Qed.

(** X12. A token [a..b] whose parts convert to finite numbers, when the
    strings of the two numbers compare as the numbers do, is resolved to
    the slice from the first thread that holds the larger number through
    the first thread that holds the smaller one. *)
Lemma range_token_as_specified (Number : string -> number)
  (ToString : number -> string) (this : Subscription.t)
  (ep_ a b : string) (A B : Q) :
  isFinite (Number ep_) = false ->
  split_dots ep_ = [a; b] ->
  Number a = Finite A -> Number b = Finite B ->
  String.ltb (ToString (Finite B)) (ToString (Finite A))
  = negb (Qle_bool A B) ->
  Subscription.token_threads Number ToString this ep_
  = range_as_specified this A B.
Proof.
  intros Hrange Hsplit Ha Hb Hagree.
  unfold Subscription.token_threads. rewrite Hrange.
  rewrite (range_bounds_by_string_order _ _ _ _ _ Hsplit), Ha, Hb, Hagree.
  unfold range_as_specified. now destruct (Qle_bool A B).
Qed.

(** C2, as stated, fails: on the threads of episodes 3, 2 and 1 the
    token [1..5] has the absent boundary 5; [getThreads] returns the one
    thread of episode 1, makes no console call and throws nothing. *)
Lemma range_1_5_returns_silently :
  Subscription.range_bounds Number_dec ToString_dec "1..5"
  = (Num (Finite 1), Num (Finite 5))
  /\ occurs show_3_2_1 (Num (Finite 5)) = false
  /\ getThreads_call Number_dec ToString_dec show_3_2_1 "1..5"
     = (returned [E1], [])
  /\ ~ surfaces_error
         (getThreads_call Number_dec ToString_dec show_3_2_1 "1..5").
Proof.
  assert (E : getThreads_call Number_dec ToString_dec show_3_2_1 "1..5"
              = (returned [E1], [])) by (vm_compute; reflexivity).
  split; [vm_compute; reflexivity|].
  split; [vm_compute; reflexivity|]. split; [exact E|].
  rewrite E. intros [[err H] | H]; simpl in H; congruence.
Qed.

(** C2, amended. For a range token with a boundary value that no
    thread holds, [getThreads] surfaces no error, whatever the selector the
    token stands in: it returns normally and makes no console call.  The
    index of the absent boundary is -1 and the slice is taken from it: the
    token yields no thread when [epi], the bound sorted first, is absent;
    when only [epj] is absent it yields [threads.slice(-1)], the last
    thread of the array, if that is the first thread holding [epi], and no
    thread otherwise. *)
Theorem absent_bound_returns_silently (Number : string -> number)
  (ToString : number -> string) (this : Subscription.t) (ep_ : string) :
  isFinite (Number ep_) = false ->
  occurs this (fst (Subscription.range_bounds Number ToString ep_)) = false
  \/ occurs this (snd (Subscription.range_bounds Number ToString ep_)) = false ->
  (forall epstr, In ep_ (split_on "," epstr) ->
                 ~ surfaces_error (getThreads_call Number ToString this epstr))
  /\ Subscription.token_threads Number ToString this ep_
     = if occurs this (fst (Subscription.range_bounds Number ToString ep_))
       then
         if findIndex
              (fun th => includes (ep th)
                           (fst (Subscription.range_bounds Number ToString ep_)))
              (Subscription.threads this) + 1
            =? Z.of_nat (List.length (Subscription.threads this))
         then slice_from (Subscription.threads this) (-1)
         else []
       else [].
Proof.
  intros Hrange Habsent. split.
  - intros epstr _ [[err H] | H]; simpl in H; congruence.
  - unfold Subscription.token_threads. rewrite Hrange.
    destruct (Subscription.range_bounds Number ToString ep_) as [epi epj].
    simpl fst in *. simpl snd in *. unfold occurs in *.
    destruct (existsb (fun th => includes (ep th) epi)
                (Subscription.threads this)) eqn:Hi.
    + destruct Habsent as [H | Hj]; [discriminate|].
      rewrite (findIndex_absent _ _ Hj).
      pose proof (findIndex_present _ _ Hi) as Hb.
      rewrite (slice_from_minus_1 _ Blank _ Hb).
      rewrite (slice_from_last _ Blank).
      destruct (Subscription.threads this); [simpl in Hb; lia | reflexivity].
    + rewrite (findIndex_absent _ _ Hi). apply slice_to_0.
Qed.

Lemma absent_bound_returns_silently_witness :
  (isFinite (Number_dec "1..5") = false
   /\ (occurs show_3_2_1
         (fst (Subscription.range_bounds Number_dec ToString_dec "1..5")) = false
       \/ occurs show_3_2_1
            (snd (Subscription.range_bounds Number_dec ToString_dec "1..5"))
          = false))
  /\ Subscription.token_threads Number_dec ToString_dec show_3_2_1 "1..5"
     = [E1].
Proof.
  assert (H1 : isFinite (Number_dec "1..5") = false) by reflexivity.
  assert (H2 : occurs show_3_2_1
                 (fst (Subscription.range_bounds Number_dec ToString_dec "1..5"))
               = false
               \/ occurs show_3_2_1
                    (snd (Subscription.range_bounds Number_dec ToString_dec
                            "1..5")) = false)
    by (right; vm_compute; reflexivity).
  split; [now split|].
  rewrite (proj2 (absent_bound_returns_silently Number_dec ToString_dec
                    show_3_2_1 "1..5" H1 H2)).
  vm_compute. reflexivity.
Defined.

(** C1. On the threads of episodes 10 and 2, which hold both bounds,
    the token [2..10] selects nothing, and neither does [10..2].  The
    default [sort()] compares the bounds as strings, so that 10 comes
    before 2: [epi] is 10 and [epj] is 2, the head of the slice is found
    after its tail.  With [lo] the smaller and [hi] the larger bound, as
    the spec words it, both threads are selected. *)
Theorem range_2_10_selects_nothing :
  Subscription.threads show_10_2 = [E10; E2]
  /\ occurs show_10_2 (Num (Number_dec "2")) = true
  /\ occurs show_10_2 (Num (Number_dec "10")) = true
  /\ Subscription.range_bounds Number_dec ToString_dec "2..10"
     = (Num (Finite 10), Num (Finite 2))
  /\ Subscription.getThreads Number_dec ToString_dec show_10_2 "2..10" = []
  /\ Subscription.getThreads Number_dec ToString_dec show_10_2 "10..2" = []
  /\ range_as_specified show_10_2 2 10 = [E10; E2].
Proof. repeat split; vm_compute; reflexivity. Qed.

(** ** [Database.download] *)

Lemma isSupportedClient_spec (client_ : string) :
  Database.isSupportedClient client_ = true
  <-> client_ = "aria2" \/ client_ = "deluge".
Proof.
  unfold Database.isSupportedClient. simpl. rewrite !orb_true_iff.
  rewrite !String.eqb_eq. intuition discriminate.
Qed.

(** C3, as stated, fails: with the client ["ftp"], which is not
    supported, [download] spawns [node] on the script
    [downloaders/ftp.js]. *)
Lemma download_ftp_spawns_node :
  Database.isSupportedClient "ftp" = false
  /\ Database.spawned
       (example_download E1 (Database.mkOptions (Some "ftp") None None))
     = [Database.mkSpawn "node"
          ["/app/downloaders/ftp.js"; "thread:E1";
           "dest:/downloads,jsonrpc:http://localhost:6800/jsonrpc"]
          "inherit"]
  /\ Database.spawned
       (example_download E1 (Database.mkOptions (Some "ftp") None None))
     <> [].
Proof. repeat split; discriminate. Qed.

(** C3, amended. [download] does not consult [isSupportedClient]: for
    a resolved client outside [aria2] and [deluge] too, it spawns one
    [node] process, on the script [downloaders/<client>.js] with the thread
    and [{ dest, jsonrpc }] as arguments, and the promise settles by that
    process alone: resolved on exit code 0, rejected with the exit code
    otherwise, rejected with the error when the launch fails. *)
Theorem download_spawns_for_unsupported_client
  (config_get : string -> string) (dirname : string)
  (path_resolve : string -> string) (stringify_thread : Thread -> string)
  (stringify_dest : string -> string -> string)
  (thread : Thread) (o : Database.options) :
  Database.isSupportedClient (Database.dclient config_get o) = false ->
  let r := Database.download config_get dirname path_resolve
             stringify_thread stringify_dest thread o in
  Database.spawned r
  = [Database.mkSpawn "node"
       [Database.script_of dirname path_resolve (Database.dclient config_get o);
        stringify_thread thread;
        stringify_dest (Database.dest config_get o)
          (Database.djsonrpc config_get o)]
       "inherit"]
  /\ Database.settle r (Database.close 0) = Database.resolved 0
  /\ (forall code, code <> 0 ->
        Database.settle r (Database.close code) = Database.rejected_code code)
  /\ (forall err,
        Database.settle r (Database.error err) = Database.rejected_error err).
Proof.
  intros _ r. repeat split.
  intros code Hcode. simpl. now destruct (Z.eqb_spec code 0).
Qed.

Lemma download_spawns_for_unsupported_client_witness :
  Database.isSupportedClient
    (Database.dclient example_config
       (Database.mkOptions (Some "ftp") None None)) = false
  /\ Database.settle
       (example_download E1 (Database.mkOptions (Some "ftp") None None))
       (Database.close 1)
     = Database.rejected_code 1.
Proof.
  assert (H : Database.isSupportedClient
                (Database.dclient example_config
                   (Database.mkOptions (Some "ftp") None None)) = false)
    by reflexivity.
  split; [exact H|].
  apply (download_spawns_for_unsupported_client example_config "/app"
           (fun p => p) (fun th => ("thread:" ++ title th)%string)
           (fun d j => ("dest:" ++ d ++ ",jsonrpc:" ++ j)%string)
           E1 (Database.mkOptions (Some "ftp") None None) H).
  discriminate.
Defined.

(** ** Selectors on the example subscription *)

Lemma getThreads_union_in_first_order_witness :
  ("1,3,1..3" <> EmptyString /\ "1,3,1..3" <> "all")
  /\ Subscription.getThreads Number_dec ToString_dec show_3_2_1 "1,3,1..3"
     = [E1; E3; E2]
  /\ NoDup (Subscription.getThreads Number_dec ToString_dec show_3_2_1
              "1,3,1..3").
Proof.
  assert (H1 : "1,3,1..3" <> EmptyString) by discriminate.
  assert (H2 : "1,3,1..3" <> "all") by discriminate.
  split; [now split|]. split; [vm_compute; reflexivity|].
  exact (proj1 (getThreads_union_in_first_order Number_dec ToString_dec
                  show_3_2_1 "1,3,1..3" H1 H2)).
Defined.

(** ** The scenarios of the spec *)

(** Scenario A: [E1] then [E2] are added; the array is [[E2, E1]] and
    [latest] is 2. *)
Example scenario_A :
  run [call_add E1; call_add E2] show
  = (Subscription.mk "Show" ["kw"] None [E2; E1] (Num (Finite 2)), []).
Proof. reflexivity. Qed.

(** Scenario B: on that state, [getThreads("1..2")] is [[E2, E1]]. *)
Example scenario_B :
  Subscription.getThreads Number_dec ToString_dec
    (fst (run [call_add E1; call_add E2] show)) "1..2"
  = [E2; E1].
Proof. vm_compute. reflexivity. Qed.

(** Scenario C: on that state, [add(Bad)] changes nothing and reports the
    rejection. *)
Example scenario_C :
  run [call_add E1; call_add E2; call_add Bad] show
  = (Subscription.mk "Show" ["kw"] None [E2; E1] (Num (Finite 2)),
     [console_error "Can't add invalid thread into subscription [Show]" Bad]).
Proof. reflexivity. Qed.

(** Scenario D: a second subscription with the name and keywords of the
    first is given the rehashed sid. *)
Example scenario_D :
  option_map Subscription.sid
    (Subscription.generateSid example_hash 1 [] show)
  = Some (Some "Show#kw")
  /\ option_map Subscription.sid
       (Subscription.generateSid example_hash 2 [Some "Show#kw"] show)
     = Some (Some "Show#Show#kw").
Proof. split; reflexivity. Qed.

(** * Further properties *)

(** ** Splitting and joining *)

Lemma split_on_cons (sep : ascii) (s : string) :
  exists w ws, split_on sep s = w :: ws.
Proof.
  induction s as [|c s IH]; simpl; [now eexists; eexists|].
  destruct (Ascii.eqb c sep); [now eexists; eexists|].
  destruct IH as (w & ws & ->). simpl. now eexists; eexists.
Qed.

Lemma split_on_no_sep (sep : ascii) (s : string) :
  Forall (fun w => has_char sep w = false) (split_on sep s).
Proof.
  induction s as [|c s IH]; simpl; [repeat constructor|].
  destruct (Ascii.eqb c sep) eqn:E; [now constructor|].
  destruct (split_on sep s) as [|w ws]; simpl.
  - repeat constructor. simpl. now rewrite E.
  - apply Forall_cons_iff in IH. destruct IH as [Hw Hws].
    constructor; [|exact Hws]. simpl. now rewrite E, Hw.
Qed.

Lemma split_on_piece (sep : ascii) (w : string) :
  has_char sep w = false -> split_on sep w = [w].
Proof.
  induction w as [|c w IH]; simpl; [reflexivity|].
  intros H. apply orb_false_iff in H. destruct H as [Hc Hw].
  now rewrite Hc, (IH Hw).
Qed.

Lemma split_on_piece_sep (sep : ascii) (w rest : string) :
  has_char sep w = false ->
  split_on sep (w ++ String sep rest) = w :: split_on sep rest.
Proof.
  induction w as [|c w IH]; simpl.
  - intros _. now rewrite Ascii.eqb_refl.
  - intros H. apply orb_false_iff in H. destruct H as [Hc Hw].
    now rewrite Hc, (IH Hw).
Qed.

(** Joining comma-free strings and splitting again gives them back. *)
Lemma split_on_join (sep : ascii) (w : string) (ws : list string) :
  Forall (fun x => has_char sep x = false) (w :: ws) ->
  split_on sep (join (String sep EmptyString) (w :: ws)) = w :: ws.
Proof.
  revert w. induction ws as [|w' ws IH]; intros w H.
  - apply split_on_piece. now apply Forall_cons_iff in H.
  - apply Forall_cons_iff in H. destruct H as [Hw H].
    change (join (String sep EmptyString) (w :: w' :: ws))
      with (w ++ String sep (join (String sep EmptyString) (w' :: ws)))%string.
    now rewrite (split_on_piece_sep _ _ _ Hw), (IH w' H).
Qed.

(** Splitting a string and joining the pieces gives the string back. *)
Lemma join_split_on (sep : ascii) (s : string) :
  join (String sep EmptyString) (split_on sep s) = s.
Proof.
  induction s as [|c s IH]; simpl; [reflexivity|].
  destruct (split_on_cons sep s) as (w & ws & E). rewrite E in *.
  destruct (Ascii.eqb_spec c sep) as [-> | Hne].
  - change (join (String sep EmptyString) (EmptyString :: w :: ws))
      with (String sep (join (String sep EmptyString) (w :: ws))).
    now rewrite IH.
  - simpl cons_first. rewrite <- IH. now destruct ws.
Qed.

(** ** The order of strings *)

Lemma ascii_compare_trans (a b c : ascii) :
  Ascii.compare a b <> Gt -> Ascii.compare b c <> Gt ->
  Ascii.compare a c <> Gt.
Proof.
  unfold Ascii.compare. rewrite !N.compare_gt_iff. lia.
Qed.

Lemma ascii_compare_Eq_r (a b c : ascii) :
  Ascii.compare a b = Eq -> Ascii.compare a c = Ascii.compare b c.
Proof. intros H. apply Ascii.compare_eq_iff in H. now subst. Qed.

Lemma string_compare_trans (a b c : string) :
  String.compare a b <> Gt -> String.compare b c <> Gt ->
  String.compare a c <> Gt.
Proof.
  revert b c. induction a as [|x a IH]; intros [|y b] [|z c]; simpl;
    try congruence.
  destruct (Ascii.compare x y) eqn:Exy; try congruence;
    destruct (Ascii.compare y z) eqn:Eyz; try congruence; intros Hab Hbc.
  - rewrite (ascii_compare_Eq_r _ _ _ Exy), Eyz. now apply (IH b c).
  - now rewrite (ascii_compare_Eq_r _ _ _ Exy), Eyz.
  - apply Ascii.compare_eq_iff in Eyz. subst z. now rewrite Exy.
  - assert (H : Ascii.compare x z <> Gt)
      by (apply (ascii_compare_trans x y z); congruence).
    destruct (Ascii.compare x z) eqn:Exz; try congruence.
    exfalso. apply Ascii.compare_eq_iff in Exz. subst z.
    rewrite Ascii.compare_antisym, Exy in Eyz. discriminate.
Qed.

Lemma units_compare_refl (a : list N) : units_compare a a = Eq.
Proof.
  induction a as [|x a IH]; simpl; [reflexivity|].
  now rewrite N.compare_refl.
Qed.

Lemma units_compare_eq (a b : list N) : units_compare a b = Eq -> a = b.
Proof.
  revert b. induction a as [|x a IH]; intros [|y b]; simpl;
    try discriminate; [reflexivity|].
  destruct (x ?= y)%N eqn:E; try discriminate.
  apply N.compare_eq_iff in E. subst y. intros H. f_equal. now apply IH.
Qed.

Lemma units_compare_antisym (a b : list N) :
  units_compare b a = CompOpp (units_compare a b).
Proof.
  revert b. induction a as [|x a IH]; intros [|y b]; simpl; try reflexivity.
  rewrite (N.compare_antisym x y).
  destruct (x ?= y)%N; simpl; [apply IH | reflexivity | reflexivity].
Qed.

Lemma units_compare_trans (a b c : list N) :
  units_compare a b = Lt -> units_compare b c = Lt -> units_compare a c = Lt.
Proof.
  revert b c. induction a as [|x a IH]; intros [|y b] [|z c]; simpl;
    try congruence.
  destruct (x ?= y)%N eqn:Exy; try congruence;
    destruct (y ?= z)%N eqn:Eyz; try congruence; intros Hab Hbc.
  - apply N.compare_eq_iff in Exy. subst y. rewrite Eyz. now apply (IH b c).
  - apply N.compare_eq_iff in Exy. subst y. now rewrite Eyz.
  - apply N.compare_eq_iff in Eyz. subst z. now rewrite Exy.
  - rewrite N.compare_lt_iff in Exy, Eyz.
    assert (E : (x ?= z)%N = Lt) by (apply N.compare_lt_iff; lia).
    now rewrite E.
Qed.

Lemma code_unit_compare_antisym (x y : string) :
  code_unit_compare y x = CompOpp (code_unit_compare x y).
Proof.
  unfold code_unit_compare.
  rewrite (units_compare_antisym (code_units x) (code_units y)).
  destruct (units_compare (code_units x) (code_units y)); simpl;
    try reflexivity.
  apply String.compare_antisym.
Qed.

Lemma code_unit_compare_eq (x y : string) :
  code_unit_compare x y = Eq -> x = y.
Proof.
  unfold code_unit_compare.
  destruct (units_compare (code_units x) (code_units y)); try discriminate.
  apply String.compare_eq_iff.
Qed.

Lemma string_le_trans (a b c : string) :
  string_le a b -> string_le b c -> string_le a c.
Proof.
  unfold string_le, code_unit_compare. intros Hab Hbc.
  destruct (units_compare (code_units a) (code_units b)) eqn:Eab;
    try congruence;
    destruct (units_compare (code_units b) (code_units c)) eqn:Ebc;
    try congruence.
  - apply units_compare_eq in Eab, Ebc. rewrite Eab, Ebc, units_compare_refl.
    now apply (string_compare_trans a b c).
  - apply units_compare_eq in Eab. rewrite Eab, Ebc. discriminate.
  - apply units_compare_eq in Ebc. rewrite <- Ebc, Eab. discriminate.
  - rewrite (units_compare_trans _ _ _ Eab Ebc). discriminate.
Qed.

Lemma string_le_antisym (a b : string) :
  string_le a b -> string_le b a -> a = b.
Proof.
  unfold string_le. rewrite (code_unit_compare_antisym a b).
  intros Hab Hba. apply code_unit_compare_eq.
  destruct (code_unit_compare a b); simpl in *; congruence.
Qed.

Lemma in_order_string_le (a b : string) :
  in_order code_unit_gt a b <-> string_le a b.
Proof.
  unfold in_order, code_unit_gt, string_le.
  rewrite (code_unit_compare_antisym a b).
  destruct (code_unit_compare a b); simpl; split; congruence.
Qed.

Lemma code_unit_gt_asym : asymmetric code_unit_gt.
Proof.
  intros x y. unfold code_unit_gt.
  rewrite (code_unit_compare_antisym y x).
  destruct (code_unit_compare y x); simpl; congruence.
Qed.

(** On strings of characters below 128 the order of code units is the
    order of bytes. *)
Lemma code_units_below_128 (s : string) :
  Forall (fun c => (N_of_ascii c < 128)%N) (list_ascii_of_string s) ->
  code_units s = map N_of_ascii (list_ascii_of_string s).
Proof.
  induction s as [|c s IH]; simpl; [reflexivity|]. intros H.
  apply Forall_cons_iff in H. destruct H as [Hc Hs].
  assert (E : (N_of_ascii c <? 192)%N = true) by (apply N.ltb_lt; lia).
  rewrite E. f_equal. now apply IH.
Qed.

Lemma units_compare_bytes (x y : string) :
  units_compare (map N_of_ascii (list_ascii_of_string x))
    (map N_of_ascii (list_ascii_of_string y))
  = String.compare x y.
Proof.
  revert y. induction x as [|a x IH]; intros [|b y]; simpl; try reflexivity.
  unfold Ascii.compare. rewrite IH. reflexivity.
Qed.

Lemma code_unit_gt_below_128 (x y : string) :
  Forall (fun c => (N_of_ascii c < 128)%N) (list_ascii_of_string x) ->
  Forall (fun c => (N_of_ascii c < 128)%N) (list_ascii_of_string y) ->
  code_unit_gt x y = string_gt x y.
Proof.
  intros Hx Hy. unfold code_unit_gt, code_unit_compare, string_gt, String.ltb.
  rewrite (code_units_below_128 x Hx), (code_units_below_128 y Hy).
  rewrite units_compare_bytes.
  now destruct (String.compare y x).
Qed.

(** A character outside the basic plane is a surrogate pair, which sorts
    below the characters from U+E000 on, and counts for two in the
    length. *)
Lemma code_units_of_text :
  code_units "～😀" = [65374; 55357; 56832]%N
  /\ code_unit_length "紫羅蘭,繁體" = 6%nat
  /\ Subscription.keywords (Subscription.new "Show,～,😀") = ["😀"; "～"].
Proof. repeat split. Qed.

Lemma Array_sort_strings_sorted (l : list string) :
  StronglySorted string_le (Array_sort code_unit_gt l).
Proof.
  apply Sorted_StronglySorted.
  - intros a b c. apply string_le_trans.
  - assert (H := Array_sort_Sorted code_unit_gt l code_unit_gt_asym).
    induction H as [|a l' Hs IH Hhd]; constructor; [exact IH|].
    destruct Hhd; constructor. now apply in_order_string_le.
Qed.

(** Two sorted arrangements of the same strings are equal. *)
Lemma sorted_strings_unique (l1 l2 : list string) :
  StronglySorted string_le l1 -> StronglySorted string_le l2 ->
  Permutation l1 l2 -> l1 = l2.
Proof.
  revert l2. induction l1 as [|a l1 IH]; intros l2 H1 H2 Hp.
  - apply Permutation_nil in Hp. now subst.
  - destruct l2 as [|b l2];
      [apply Permutation_sym, Permutation_nil in Hp; discriminate|].
    apply StronglySorted_inv in H1. destruct H1 as [H1 Ha].
    apply StronglySorted_inv in H2. destruct H2 as [H2 Hb].
    assert (E : a = b).
    { assert (Hin_a : In a (b :: l2))
        by (apply (Permutation_in _ Hp); now left).
      assert (Hin_b : In b (a :: l1))
        by (apply (Permutation_in _ (Permutation_sym Hp)); now left).
      destruct Hin_a as [-> | Hin_a]; [reflexivity|].
      destruct Hin_b as [-> | Hin_b]; [reflexivity|].
      rewrite Forall_forall in Ha, Hb.
      apply string_le_antisym; [apply Ha, Hin_b | apply Hb, Hin_a]. }
    subst b. f_equal. apply IH; try assumption.
    exact (Permutation_cons_inv Hp).
Qed.

Lemma Array_sort_strings_perm (l1 l2 : list string) :
  Permutation l1 l2 ->
  Array_sort code_unit_gt l1 = Array_sort code_unit_gt l2.
Proof.
  intros Hp. apply sorted_strings_unique;
    try apply Array_sort_strings_sorted.
  rewrite !Array_sort_perm. exact Hp.
Qed.

Lemma new_splits_and_sorts_aux (subscribable : string) :
  Forall (fun x => has_char "," x = false)
    (Subscription.name (Subscription.new subscribable)
     :: Subscription.keywords (Subscription.new subscribable))
  /\ Sorted (in_order code_unit_gt)
       (Subscription.keywords (Subscription.new subscribable)).
Proof.
  unfold Subscription.new. simpl.
  pose proof (split_on_no_sep "," subscribable) as Hno.
  destruct (split_on_cons "," subscribable) as (w & ws & E).
  rewrite E in *. simpl.
  apply Forall_cons_iff in Hno. destruct Hno as [Hw Hws]. split.
  - constructor; [exact Hw|].
    exact (Permutation_Forall (Permutation_sym (Array_sort_perm _ _)) Hws).
  - apply Array_sort_Sorted, code_unit_gt_asym.
Qed.

(** ** The constructor *)

(** X1. [new Subscription(subscribable)] keeps the first comma-separated
    field as the name and the other fields, sorted in ascending order of
    their code units, as the keywords; no field holds a comma, and the name
    and the fields after it, joined by commas, are the string given. *)
Theorem new_splits_and_sorts (subscribable : string) :
  let this := Subscription.new subscribable in
  let fields := split_on "," subscribable in
  StronglySorted string_le (Subscription.keywords this)
  /\ Permutation (Subscription.keywords this) (tl fields)
  /\ has_char "," (Subscription.name this) = false
  /\ Forall (fun k => has_char "," k = false) (Subscription.keywords this)
  /\ join "," (Subscription.name this :: tl fields) = subscribable.
Proof.
  intros this fields. unfold this, Subscription.new. simpl.
  fold fields.
  pose proof (split_on_no_sep "," subscribable) as Hno. fold fields in Hno.
  pose proof (join_split_on "," subscribable) as Hjoin. fold fields in Hjoin.
  destruct (split_on_cons "," subscribable) as (w & ws & E).
  fold fields in E. rewrite E in *. simpl.
  apply Forall_cons_iff in Hno. destruct Hno as [Hw Hws].
  repeat split.
  - apply Array_sort_strings_sorted.
  - apply Array_sort_perm.
  - exact Hw.
  - apply (Permutation_Forall (Permutation_sym (Array_sort_perm _ _))).
    exact Hws.
  - exact Hjoin.
Qed.

Lemma new_of_fields (name_ : string) (kws : list string) :
  Forall (fun x => has_char "," x = false) (name_ :: kws) ->
  Subscription.new (join "," (name_ :: kws))
  = Subscription.mk name_ (Array_sort code_unit_gt kws) None []
      (Num (Finite (-1))).
Proof.
  intros H. unfold Subscription.new.
  now rewrite (split_on_join "," name_ kws H).
Qed.

(** X2. The order in which the keywords are given does not matter: for
    a name and keywords without comma, the strings [name,k1,...,kn] built
    with the keywords in two different orders give equal subscriptions. *)
Theorem new_ignores_keyword_order (name_ : string) (kws kws' : list string) :
  has_char "," name_ = false ->
  Forall (fun k => has_char "," k = false) kws ->
  Permutation kws kws' ->
  Subscription.new (join "," (name_ :: kws))
  = Subscription.new (join "," (name_ :: kws')).
Proof.
  intros Hn Hk Hp.
  rewrite !new_of_fields.
  - now rewrite (Array_sort_strings_perm _ _ Hp).
  - constructor; [exact Hn | exact (Permutation_Forall Hp Hk)].
  - now constructor.
Qed.

Lemma new_ignores_keyword_order_witness :
  (has_char "," "Show" = false
   /\ Forall (fun k => has_char "," k = false) ["b"; "a"]
   /\ Permutation ["b"; "a"] ["a"; "b"])
  /\ Subscription.new "Show,b,a" = Subscription.new "Show,a,b".
Proof.
  assert (H1 : has_char "," "Show" = false) by reflexivity.
  assert (H2 : Forall (fun k => has_char "," k = false) ["b"; "a"])
    by (repeat constructor).
  assert (H3 : Permutation ["b"; "a"] ["a"; "b"]) by apply perm_swap.
  split; [now repeat split|].
  exact (new_ignores_keyword_order "Show" ["b"; "a"] ["a"; "b"] H1 H2 H3).
Defined.

(** ** [Subscription.list] *)

Lemma step_keeps_identity (c : call) (this : Subscription.t) :
  Subscription.name (fst (step c this)) = Subscription.name this
  /\ Subscription.keywords (fst (step c this)) = Subscription.keywords this
  /\ Subscription.sid (fst (step c this)) = Subscription.sid this.
Proof.
  destruct c as [thread|]; simpl; [|now repeat split].
  destruct (valid thread) eqn:Hv.
  - destruct (add_valid thread this Hv) as (top & rest & _ & ->).
    now repeat split.
  - rewrite (add_invalid thread this Hv). now repeat split.
Qed.

Lemma run_keeps_identity (cs : list call) (this : Subscription.t) :
  Subscription.name (fst (run cs this)) = Subscription.name this
  /\ Subscription.keywords (fst (run cs this)) = Subscription.keywords this
  /\ Subscription.sid (fst (run cs this)) = Subscription.sid this.
Proof.
  apply (run_sequence
           (fun s => Subscription.name s = Subscription.name this
                     /\ Subscription.keywords s = Subscription.keywords this
                     /\ Subscription.sid s = Subscription.sid this)).
  - intros c s _ (Hn & Hk & Hs).
    destruct (step_keeps_identity c s) as (Hn' & Hk' & Hs').
    repeat split; congruence.
  - now repeat split.
Qed.

(** X3. The first line that [list()] prints for a subscription built
    from a string, whatever calls of [add] and [sort] were made since,
    rebuilds the subscription: given to the constructor, it yields the
    subscription that the first string built. *)
Theorem list_line_rebuilds_subscription (ToString : number -> string)
  (subscribable : string) (cs : list call) :
  let this := fst (run cs (Subscription.new subscribable)) in
  hd_error (Subscription.list ToString this)
  = Some (console_log (Subscription.subscribable_of this))
  /\ Subscription.new (Subscription.subscribable_of this)
     = Subscription.new subscribable.
Proof.
  intros this. split; [reflexivity|].
  destruct (run_keeps_identity cs (Subscription.new subscribable))
    as (Hn & Hk & _).
  fold this in Hn, Hk. unfold Subscription.subscribable_of.
  rewrite Hn, Hk.
  destruct (new_splits_and_sorts_aux subscribable) as (Hno & Hsorted).
  rewrite (new_of_fields _ _ Hno), (Array_sort_id _ _ Hsorted).
  reflexivity.
Qed.

(** ** Calls of [add] and [sort] *)

Lemma run_cons_snd (c : call) (cs : list call) (this : Subscription.t) :
  snd (run (c :: cs) this)
  = snd (step c this) ++ snd (run cs (fst (step c this))).
Proof.
  simpl. destruct (step c this) as [this' out]. simpl.
  now destruct (run cs this').
Qed.

(** X4. A sequence of calls of [add] and [sort] accounts for every thread
    given to [add]: the array holds the threads it held before and the
    threads that pass the test of [add], none lost and none twice over,
    and the console holds one call of [console.error] for each thread
    that fails the test, in the order of the calls. *)
Theorem calls_account_for_every_thread (cs : list call)
  (this : Subscription.t) :
  Permutation (Subscription.threads (fst (run cs this)))
    (Subscription.threads this ++ filter valid (added cs))
  /\ snd (run cs this)
     = map (console_error (Subscription.invalid_message this))
         (filter (fun th => negb (valid th)) (added cs)).
Proof.
  revert this. induction cs as [|c cs IH]; intros this.
  - simpl. rewrite app_nil_r. now split.
  - rewrite run_cons, run_cons_snd.
    destruct (IH (fst (step c this))) as [Hp Hout]. rewrite Hout. clear Hout.
    assert (Hmsg : Subscription.invalid_message (fst (step c this))
                   = Subscription.invalid_message this).
    { unfold Subscription.invalid_message.
      now rewrite (proj1 (step_keeps_identity c this)). }
    rewrite Hmsg. destruct c as [thread|].
    + change (added (call_add thread :: cs)) with (thread :: added cs).
      cbn [step filter] in *. destruct (valid thread) eqn:Hv; cbn [negb].
      * destruct (add_valid thread this Hv) as (top & rest & Hsort & Hadd).
        rewrite Hadd in *. cbn [fst snd Subscription.threads] in *.
        split; [|reflexivity].
        eapply Permutation_trans; [exact Hp|].
        rewrite <- Hsort, Array_sort_perm, <- app_assoc. reflexivity.
      * rewrite (add_invalid thread this Hv) in *. cbn [fst snd] in *.
        now split.
    + change (added (call_sort :: cs)) with (added cs).
      cbn [step fst snd] in *. split; [|reflexivity].
      eapply Permutation_trans; [exact Hp|].
      apply Permutation_app_tail, Array_sort_perm.
Qed.

Lemma Subscription_sort_idem (this : Subscription.t) :
  Subscription.sort (Subscription.sort this) = Subscription.sort this.
Proof.
  unfold Subscription.sort, Subscription.set_threads. simpl.
  now rewrite (Array_sort_idem _ _ comparefn_gt_asym).
Qed.

(** X5. On an array whose threads all have a finite [ep[0]], [sort()]
    permutes the threads, leaves the other fields, and sorting twice is
    sorting once. *)
Theorem sort_is_idempotent (this : Subscription.t) :
  Forall has_first_episode (Subscription.threads this) ->
  Subscription.sort (Subscription.sort this) = Subscription.sort this
  /\ Permutation (Subscription.threads (Subscription.sort this))
       (Subscription.threads this)
  /\ Subscription.latest (Subscription.sort this) = Subscription.latest this.
Proof.
  intros _.
  unfold Subscription.sort, Subscription.set_threads. simpl. repeat split.
  - now rewrite (Array_sort_idem _ _ comparefn_gt_asym).
  - apply Array_sort_perm.
Qed.

(** X6. On a subscription built from a string by calls of [add] and
    [sort] in which no added thread has an empty [ep], a further [sort()]
    changes nothing: [add] leaves the array as [sort] would. *)
Theorem sort_after_calls_is_noop (subscribable : string) (cs : list call) :
  (forall thread, In thread (added cs) -> ep thread <> []) ->
  let this := fst (run cs (Subscription.new subscribable)) in
  Subscription.sort this = this.
Proof.
  intros _ this.
  assert (H : Sorted (in_order Subscription.comparefn_gt)
                (Subscription.threads this)
              /\ Subscription.latest this = expected_latest this).
  { apply (run_sequence
             (fun s => Sorted (in_order Subscription.comparefn_gt)
                         (Subscription.threads s)
                       /\ Subscription.latest s = expected_latest s)).
    - intros c s _. apply step_keeps_latest.
    - split; [constructor | reflexivity]. }
  unfold Subscription.sort, Subscription.set_threads.
  rewrite (Array_sort_id _ _ (proj1 H)). now destruct this.
Qed.

Lemma sort_after_calls_is_noop_witness :
  (forall thread, In thread (added [call_add E1; call_add E2; call_add E3]) ->
                  ep thread <> [])
  /\ Subscription.sort show_3_2_1 = show_3_2_1.
Proof.
  assert (H : forall thread,
             In thread (added [call_add E1; call_add E2; call_add E3]) ->
             ep thread <> []).
  { intros thread [<- | [<- | [<- | []]]]; discriminate. }
  split; [exact H|].
  exact (sort_after_calls_is_noop "Show,kw" _ H).
Defined.

Lemma show_3_2_1_first_episodes :
  Forall has_first_episode (Subscription.threads show_3_2_1).
Proof.
  change (Subscription.threads show_3_2_1) with [E3; E2; E1].
  repeat constructor; [now exists 3%Q | now exists 2%Q | now exists 1%Q].
Qed.

Lemma sort_is_idempotent_witness :
  Forall has_first_episode (Subscription.threads show_3_2_1)
  /\ Subscription.sort (Subscription.sort show_3_2_1)
     = Subscription.sort show_3_2_1
  /\ Permutation (Subscription.threads (Subscription.sort show_3_2_1))
       (Subscription.threads show_3_2_1)
  /\ Subscription.latest (Subscription.sort show_3_2_1)
     = Subscription.latest show_3_2_1.
Proof.
  split; [exact show_3_2_1_first_episodes|].
  exact (sort_is_idempotent show_3_2_1 show_3_2_1_first_episodes).
Defined.


Lemma threads_sorted_when_ep_nonempty_witness :
  (forall thread, In thread (added [call_add E1; call_add E3; call_add E2]) ->
                  ep thread <> [])
  /\ sorted_desc
       (Subscription.threads
          (fst (run [call_add E1; call_add E3; call_add E2] show))).
Proof.
  assert (H : forall thread,
             In thread (added [call_add E1; call_add E3; call_add E2]) ->
             ep thread <> []).
  { intros thread [<- | [<- | [<- | []]]]; discriminate. }
  split; [exact H|].
  exact (proj2 (proj2 (threads_sorted_when_ep_nonempty "Show,kw" _ H))).
Defined.

Lemma latest_is_a_number_witness :
  (forall thread, In thread (added [call_add E1; call_add E3; call_add E2]) ->
                  ep thread <> [])
  /\ exists q,
       Subscription.latest
         (fst (run [call_add E1; call_add E3; call_add E2] show))
       = Num (Finite q).
Proof.
  assert (H : forall thread,
             In thread (added [call_add E1; call_add E3; call_add E2]) ->
             ep thread <> []).
  { intros thread [<- | [<- | [<- | []]]]; discriminate. }
  split; [exact H|].
  exact (latest_is_a_number "Show,kw" _ H).
Defined.

(** ** Selectors *)

Lemma In_firstn {A : Type} (n : nat) (l : list A) (x : A) :
  In x (firstn n l) -> In x l.
Proof.
  intros H. rewrite <- (firstn_skipn n l). apply in_or_app. now left.
Qed.

Lemma In_skipn {A : Type} (n : nat) (l : list A) (x : A) :
  In x (skipn n l) -> In x l.
Proof.
  intros H. rewrite <- (firstn_skipn n l). apply in_or_app. now right.
Qed.

Lemma In_slice {A : Type} (l : list A) (start end_ : Z) (x : A) :
  In x (slice l start end_) -> In x l.
Proof. unfold slice. intros H. eapply In_skipn, In_firstn, H. Qed.

Lemma token_threads_In (Number : string -> number)
  (ToString : number -> string) (this : Subscription.t) (ep_ : string)
  (th : Thread) :
  In th (Subscription.token_threads Number ToString this ep_) ->
  In th (Subscription.threads this).
Proof.
  unfold Subscription.token_threads.
  destruct (isFinite (Number ep_)).
  - intros H. now apply filter_In in H.
  - destruct (Subscription.range_bounds Number ToString ep_). apply In_slice.
Qed.

Lemma getThreads_In_produced (Number : string -> number)
  (ToString : number -> string) (this : Subscription.t) (epstr : string)
  (th : Thread) :
  epstr <> EmptyString -> epstr <> "all" ->
  In th (Subscription.getThreads Number ToString this epstr)
  <-> In th (produced Number ToString this epstr).
Proof.
  intros Hne Hall. rewrite (getThreads_tokens _ _ _ _ Hne Hall).
  assert (H : collects [] XSet.empty).
  { split; [constructor|]. split; [reflexivity|].
    intros a b (l1 & l2 & l3 & E). now destruct l1. }
  apply (collects_tokens
           (Subscription.token_threads Number ToString this)
           (split_on "," epstr)) in H.
  apply H.
Qed.

(** X10. Whatever the selector, [getThreads] returns threads of the
    subscription only. *)
Theorem getThreads_returns_own_threads (Number : string -> number)
  (ToString : number -> string) (this : Subscription.t) (epstr : string)
  (th : Thread) :
  In th (Subscription.getThreads Number ToString this epstr) ->
  In th (Subscription.threads this).
Proof.
  destruct (string_dec epstr EmptyString) as [-> | Hne]; [trivial|].
  destruct (string_dec epstr "all") as [-> | Hall]; [trivial|].
  rewrite (getThreads_In_produced _ _ _ _ _ Hne Hall).
  unfold produced. rewrite in_flat_map.
  intros (tok & _ & H). exact (token_threads_In _ _ _ _ _ H).
Qed.

(** X11. For a selector whose tokens all convert to finite numbers, the
    threads returned are the threads of the subscription that hold the
    number of some token among their episodes. *)
Theorem getThreads_of_numbers (Number : string -> number)
  (ToString : number -> string) (this : Subscription.t) (epstr : string)
  (th : Thread) :
  epstr <> EmptyString -> epstr <> "all" ->
  (forall tok, In tok (split_on "," epstr) -> isFinite (Number tok) = true) ->
  In th (Subscription.getThreads Number ToString this epstr)
  <-> In th (Subscription.threads this)
      /\ exists tok, In tok (split_on "," epstr)
                     /\ includes (ep th) (Num (Number tok)) = true.
Proof.
  intros Hne Hall Hfin.
  rewrite (getThreads_In_produced _ _ _ _ _ Hne Hall).
  unfold produced. rewrite in_flat_map. split.
  - intros (tok & Htok & H). unfold Subscription.token_threads in H.
    rewrite (Hfin tok Htok) in H. apply filter_In in H.
    destruct H as [Hin Hinc]. split; [exact Hin|]. now exists tok.
  - intros (Hin & tok & Htok & Hinc). exists tok. split; [exact Htok|].
    unfold Subscription.token_threads. rewrite (Hfin tok Htok).
    apply filter_In. now split.
Qed.

Lemma getThreads_of_numbers_witness :
  ("1,3" <> EmptyString /\ "1,3" <> "all"
   /\ forall tok, In tok (split_on "," "1,3") ->
                  isFinite (Number_dec tok) = true)
  /\ In E3 (Subscription.getThreads Number_dec ToString_dec show_3_2_1 "1,3").
Proof.
  assert (H1 : "1,3" <> EmptyString) by discriminate.
  assert (H2 : "1,3" <> "all") by discriminate.
  assert (H3 : forall tok, In tok (split_on "," "1,3") ->
                           isFinite (Number_dec tok) = true).
  { intros tok [<- | [<- | []]]; reflexivity. }
  split; [now repeat split|].
  apply (getThreads_of_numbers Number_dec ToString_dec show_3_2_1 "1,3" E3
           H1 H2 H3).
  split.
  - vm_compute. now left.
  - exists "3". split; [right; now left | reflexivity].
Defined.

(** ** The chain of [generateSid] *)

Lemma rehash_first_free (hash : string -> string -> string) (fuel : nat)
  (existedSids : list (option string)) (name_ keys : string) (m : nat)
  (s : string) :
  Subscription.rehash hash fuel existedSids name_
    (candidate hash name_ keys m) = Some s
  <-> exists k, (k < fuel)%nat
        /\ s = candidate hash name_ keys (m + k)
        /\ Subscription.existed_has existedSids
             (candidate hash name_ keys (m + k)) = false
        /\ (forall j, (j < k)%nat ->
              Subscription.existed_has existedSids
                (candidate hash name_ keys (m + j)) = true).
Proof.
  revert m. induction fuel as [|fuel IH]; intros m.
  - simpl. split; [discriminate|]. intros (k & Hk & _). lia.
  - cbn [Subscription.rehash].
    destruct (Subscription.existed_has existedSids
                (candidate hash name_ keys m)) eqn:E.
    + change (hash name_ (candidate hash name_ keys m))
        with (candidate hash name_ keys (S m)).
      rewrite IH. split.
      * intros (k & Hk & -> & Hfree & Htaken). exists (S k).
        rewrite Nat.add_succ_r. repeat split; try assumption; try lia.
        intros [|j] Hj; [now rewrite Nat.add_0_r|].
        rewrite Nat.add_succ_r. apply Htaken. lia.
      * intros ([|k] & Hk & -> & Hfree & Htaken).
        -- rewrite Nat.add_0_r in Hfree. congruence.
        -- exists k. rewrite Nat.add_succ_r in *.
           repeat split; try assumption; try lia.
           intros j Hj. specialize (Htaken (S j)).
           rewrite Nat.add_succ_r in Htaken. apply Htaken. lia.
    + split.
      * intros [= <-]. exists 0%nat. rewrite Nat.add_0_r.
        repeat split; try assumption; try lia.
      * intros ([|k] & Hk & -> & Hfree & Htaken).
        -- now rewrite Nat.add_0_r.
        -- specialize (Htaken 0%nat). rewrite Nat.add_0_r in Htaken.
           rewrite Htaken in E by lia. discriminate.
Qed.

(** X14. [generateSid] ends exactly when some candidate of the chain
    [hash(name, keys)], [hash(name, hash(name, keys))], ... is not an
    existing sid, and it assigns the first such candidate: with fuel for
    [fuel] tests of the loop condition it returns a subscription if and
    only if the first free candidate comes within the first [fuel] ones,
    the only field changed being [sid]. *)
Theorem generateSid_takes_first_free_candidate
  (hash : string -> string -> string) (fuel : nat)
  (existedSids : list (option string)) (this this' : Subscription.t) :
  Subscription.generateSid hash fuel existedSids this = Some this'
  <-> exists n, (n < fuel)%nat
        /\ this' = Subscription.set_sid this
                     (Some (candidate hash (Subscription.name this)
                              (join "," (Subscription.keywords this)) n))
        /\ Subscription.existed_has existedSids
             (candidate hash (Subscription.name this)
                (join "," (Subscription.keywords this)) n) = false
        /\ (forall m, (m < n)%nat ->
              Subscription.existed_has existedSids
                (candidate hash (Subscription.name this)
                   (join "," (Subscription.keywords this)) m) = true).
Proof.
  unfold Subscription.generateSid.
  pose proof (rehash_first_free hash fuel existedSids
                (Subscription.name this)
                (join "," (Subscription.keywords this)) 0) as H.
  cbn [candidate Nat.add] in H.
  destruct (Subscription.rehash hash fuel existedSids (Subscription.name this)
              (hash (Subscription.name this)
                 (join "," (Subscription.keywords this)))) as [s|].
  - destruct (proj1 (H s) eq_refl) as (n & Hn & -> & Hfree & Htaken). split.
    + intros [= <-]. now exists n.
    + intros (n' & Hn' & -> & Hfree' & Htaken'). f_equal. f_equal. f_equal.
      destruct (Nat.lt_trichotomy n n') as [Hlt | [-> | Hlt]];
        [|reflexivity|].
      * rewrite (Htaken' n Hlt) in Hfree. discriminate.
      * rewrite (Htaken n' Hlt) in Hfree'. discriminate.
  - split; [discriminate|].
    intros (n & Hn & _ & Hfree & Htaken). exfalso.
    assert (E : None = Some (candidate hash (Subscription.name this)
                               (join "," (Subscription.keywords this)) n)).
    { apply H. now exists n. }
    discriminate.
Qed.

(** ** [Database.add] *)

Lemma store_set_same (h : store) (l : loc) (s : Subscription.t) :
  store_set h l s l = s.
Proof. unfold store_set. now rewrite Nat.eqb_refl. Qed.

Lemma store_set_other (h : store) (l l' : loc) (s : Subscription.t) :
  l' <> l -> store_set h l s l' = h l'.
Proof.
  intros H. unfold store_set. now destruct (Nat.eqb_spec l' l).
Qed.

Lemma sid_equals_eq (a b : option string) :
  Db.sid_equals a b = true <-> a = b.
Proof.
  destruct a as [x|], b as [y|]; simpl; try (split; congruence).
  rewrite String.eqb_eq. split; congruence.
Qed.

(** What a call of [add] on a subscription that returns has done. *)
Lemma add_returns (hash : string -> string -> string) (fuel : nat)
  (l : loc) (h : store) (this : Db.t) (o : Db.outcome) :
  Db.add hash fuel (Db.a_Subscription l) h this = Some o ->
  exists s,
    ~ In (Some s) (Db.sids h this)
    /\ o = Db.mkOutcome (returned tt)
             (store_set h l (Subscription.set_sid (h l) (Some s)))
             (Db.mk (Db.version this) (Db.subscriptions this ++ [l]))
             [console_log ("Add subscription{" ++ Subscription.name (h l)
                           ++ "} successfully.")%string].
Proof.
  unfold Db.add, Subscription.generateSid.
  destruct (Subscription.rehash hash fuel (Db.sids h this)
              (Subscription.name (h l))
              (hash (Subscription.name (h l))
                 (join "," (Subscription.keywords (h l))))) as [s|] eqn:E;
    [|discriminate].
  intros [= <-]. exists s. split; [|reflexivity].
  rewrite <- existed_has_In. apply rehash_fresh in E. congruence.
Qed.

Lemma sids_app (h : store) (v : string) (ls : list loc) (l : loc) :
  Db.sids h (Db.mk v (ls ++ [l]))
  = Db.sids h (Db.mk v ls) ++ [Subscription.sid (h l)].
Proof. unfold Db.sids. simpl. now rewrite map_app. Qed.

Lemma sids_store_set (h : store) (v : string) (ls : list loc) (l : loc)
  (s : Subscription.t) :
  ~ In l ls ->
  Db.sids (store_set h l s) (Db.mk v ls) = Db.sids h (Db.mk v ls).
Proof.
  intros Hl. unfold Db.sids. simpl. apply map_ext_in.
  intros l' Hin. rewrite store_set_other; [reflexivity|].
  intros ->. contradiction.
Qed.

(** X15. When the subscription is not yet in the database and the sids
    of the database are pairwise distinct, a call of [add] that returns
    appends the subscription, gives it a sid that no subscription of the
    database had, keeps the sids pairwise distinct, and leaves every
    other object as it was. *)
Theorem add_keeps_sids_distinct (hash : string -> string -> string)
  (fuel : nat) (l : loc) (h : store) (this : Db.t) (o : Db.outcome) :
  ~ In l (Db.subscriptions this) ->
  NoDup (Db.sids h this) ->
  Db.add hash fuel (Db.a_Subscription l) h this = Some o ->
  Db.completes o = returned tt
  /\ Db.subscriptions (Db.db o) = Db.subscriptions this ++ [l]
  /\ NoDup (Db.sids (Db.heap o) (Db.db o))
  /\ (exists s, Subscription.sid (Db.heap o l) = Some s
                /\ ~ In (Some s) (Db.sids h this))
  /\ (forall l', l' <> l -> Db.heap o l' = h l').
Proof.
  intros Hl Hnd Hadd.
  destruct (add_returns _ _ _ _ _ _ Hadd) as (s & Hfresh & ->).
  cbn [Db.completes Db.db Db.heap Db.subscriptions].
  split; [reflexivity|]. split; [reflexivity|]. split; [|split].
  - rewrite sids_app, (sids_store_set _ _ _ _ _ Hl), store_set_same.
    destruct this as [v ls]. cbn [Db.version Db.subscriptions] in *.
    cbn [Subscription.sid Subscription.set_sid].
    apply NoDup_app; [exact Hnd | repeat constructor; intros [] |].
    intros x Hx [<- | []]. contradiction.
  - exists s. rewrite store_set_same. now split.
  - intros l' Hne. now apply store_set_other.
Qed.

Lemma add_keeps_sids_distinct_witness :
  (~ In 1%nat (Db.subscriptions example_db)
   /\ NoDup (Db.sids example_store example_db))
  /\ exists o,
       Db.add example_hash 2 (Db.a_Subscription 1%nat) example_store example_db
       = Some o
       /\ Db.sids (Db.heap o) (Db.db o)
          = [Some "Show#kw"; Some "Show#Show#kw"]
       /\ NoDup (Db.sids (Db.heap o) (Db.db o)).
Proof.
  assert (H1 : ~ In 1%nat (Db.subscriptions example_db))
    by (intros [H | []]; discriminate).
  assert (H2 : NoDup (Db.sids example_store example_db))
    by (repeat constructor; intros []).
  split; [now split|].
  eexists. split; [reflexivity|]. split; [reflexivity|].
  exact (proj1 (proj2 (proj2 (add_keeps_sids_distinct example_hash 2 1%nat
                               example_store example_db _ H1 H2 eq_refl)))).
Defined.

(** ** [Database.has] and [Database.query] *)

Lemma filter_first {A : Type} (p : A -> bool) (ls : list A) (x : A)
  (rest : list A) :
  filter p ls = x :: rest ->
  exists pre post, ls = pre ++ x :: post
                   /\ Forall (fun y => p y = false) pre /\ p x = true.
Proof.
  induction ls as [|y ls IH]; simpl; [discriminate|].
  destruct (p y) eqn:E.
  - intros [= -> <-]. exists [], ls. now repeat split.
  - intros H. destruct (IH H) as (pre & post & -> & Hpre & Hx).
    exists (y :: pre), post. repeat split; try assumption.
    now constructor.
Qed.

Lemma filter_none {A : Type} (p : A -> bool) (ls : list A) :
  filter p ls = [] <-> Forall (fun y => p y = false) ls.
Proof.
  induction ls as [|y ls IH]; simpl; [split; constructor|].
  destruct (p y) eqn:E; split.
  - discriminate.
  - intros H. apply Forall_cons_iff in H. destruct H. congruence.
  - intros H. constructor; [exact E | now apply IH].
  - intros H. apply Forall_cons_iff in H. now apply IH.
Qed.

Lemma filter_only {A : Type} (p : A -> bool) (ls : list A) (x : A) :
  (forall y, In y ls -> p y = true -> y = x) ->
  In x ls -> p x = true ->
  exists rest, filter p ls = x :: rest.
Proof.
  induction ls as [|y ls IH]; intros Honly Hin Hx; [destruct Hin|].
  simpl. destruct (p y) eqn:E.
  - rewrite (Honly y (or_introl eq_refl) E). eauto.
  - destruct Hin as [-> | Hin]; [congruence|].
    apply IH; try assumption.
    intros z Hz. apply Honly. now right.
Qed.

(** X17. [has] tells whether [query] finds a subscription, and [query]
    returns the first subscription of the array whose field equals the
    value: no subscription before it does; it returns [null] exactly when
    no subscription does. *)
Theorem query_finds_first_match (h : store) (this : Db.t) (k : Db.key)
  (v : Db.primitive) :
  (Db.has h this k v = true <-> exists l, Db.query h this k v = Some l)
  /\ (forall l, Db.query h this k v = Some l ->
        exists pre post,
          Db.subscriptions this = pre ++ l :: post
          /\ Forall (fun l' => Db.field_equals (h l') k v = false) pre
          /\ Db.field_equals (h l) k v = true)
  /\ (Db.query h this k v = None
      <-> Forall (fun l => Db.field_equals (h l) k v = false)
            (Db.subscriptions this)).
Proof.
  unfold Db.has, Db.query, index, Db.results.
  destruct (filter (fun l => Db.field_equals (h l) k v)
              (Db.subscriptions this)) as [|l rest] eqn:E; simpl.
  - split; [|split].
    + split; [discriminate | intros [l H]; discriminate].
    + discriminate.
    + split; [intros _; now apply filter_none | reflexivity].
  - split; [|split].
    + split; [eauto | reflexivity].
    + intros l' [= <-]. exact (filter_first _ _ _ _ E).
    + split; [discriminate|]. intros H. apply filter_none in H. congruence.
Qed.

(** X16. After a call of [add] that returns, [query] by the sid given
    to the subscription finds that subscription. *)
Theorem query_finds_added_subscription (hash : string -> string -> string)
  (fuel : nat) (l : loc) (h : store) (this : Db.t) (o : Db.outcome) :
  Db.add hash fuel (Db.a_Subscription l) h this = Some o ->
  exists s, Subscription.sid (Db.heap o l) = Some s
            /\ Db.query (Db.heap o) (Db.db o) Db.key_sid (Db.prim_string s)
               = Some l
            /\ Db.has (Db.heap o) (Db.db o) Db.key_sid (Db.prim_string s)
               = true.
Proof.
  intros Hadd.
  destruct (add_returns _ _ _ _ _ _ Hadd) as (s & Hfresh & ->).
  cbn [Db.heap Db.db]. exists s. rewrite store_set_same.
  split; [reflexivity|].
  unfold Db.has, Db.query, index, Db.results.
  cbn [Db.subscriptions].
  destruct (filter_only
              (fun l' => Db.field_equals
                           (store_set h l
                              (Subscription.set_sid (h l) (Some s)) l')
                           Db.key_sid (Db.prim_string s))
              (Db.subscriptions this ++ [l]) l) as (rest & ->).
  - intros l' Hin Hmatch.
    destruct (Nat.eq_dec l' l) as [-> | Hne]; [reflexivity|].
    exfalso. apply Hfresh.
    rewrite (store_set_other _ _ _ _ Hne) in Hmatch.
    apply in_app_or in Hin. destruct Hin as [Hin | [-> | []]]; [|congruence].
    unfold Db.sids. apply in_map_iff. exists l'. split; [|exact Hin].
    simpl in Hmatch. destruct (Subscription.sid (h l')) as [y|];
      [|discriminate].
    apply String.eqb_eq in Hmatch. now subst.
  - apply in_or_app. right. now left.
  - rewrite store_set_same. simpl. apply String.eqb_refl.
  - now split.
Qed.

Lemma query_finds_added_subscription_witness :
  exists o,
    Db.add example_hash 2 (Db.a_Subscription 1%nat) example_store example_db
    = Some o
    /\ Db.query (Db.heap o) (Db.db o) Db.key_sid
         (Db.prim_string "Show#Show#kw")
       = Some 1%nat.
Proof.
  eexists. split; [reflexivity|].
  destruct (query_finds_added_subscription example_hash 2 1%nat
              example_store example_db _ eq_refl) as (s & Hs & Hq & _).
  injection Hs as <-. exact Hq.
Defined.

(** ** [Database.remove] *)

Lemma findIndex_first {A : Type} (p : A -> bool) (pre post : list A) (x : A) :
  Forall (fun y => p y = false) pre -> p x = true ->
  findIndex p (pre ++ x :: post) = Z.of_nat (List.length pre).
Proof.
  intros Hpre Hx. induction Hpre as [|y pre Hy _ IH]; simpl.
  - now rewrite Hx.
  - rewrite Hy, IH.
    destruct (Z.of_nat (List.length pre) <? 0) eqn:E;
      [apply Z.ltb_lt in E|]; lia.
Qed.

Lemma findIndex_none {A : Type} (p : A -> bool) (ls : list A) :
  Forall (fun y => p y = false) ls -> findIndex p ls = -1.
Proof.
  intros H. apply findIndex_absent.
  induction H as [|y ls Hy _ IH]; simpl; [reflexivity|]. now rewrite Hy.
Qed.

Lemma splice1_middle {A : Type} (pre post : list A) (x : A) :
  splice1 (pre ++ x :: post) (Z.of_nat (List.length pre)) = pre ++ post.
Proof.
  unfold splice1. rewrite Nat2Z.id.
  rewrite firstn_app, firstn_all, Nat.sub_diag. simpl firstn.
  rewrite app_nil_r. f_equal.
  change (S (List.length pre)) with (1 + List.length pre)%nat.
  rewrite <- skipn_skipn.
  rewrite skipn_app, skipn_all, Nat.sub_diag. reflexivity.
Qed.

Lemma first_match_or_none {A : Type} (p : A -> bool) (ls : list A) :
  Forall (fun y => p y = false) ls
  \/ exists pre x post, ls = pre ++ x :: post
                        /\ Forall (fun y => p y = false) pre /\ p x = true.
Proof.
  destruct (filter p ls) as [|x rest] eqn:E.
  - left. now apply filter_none.
  - right. destruct (filter_first _ _ _ _ E) as (pre & post & H).
    now exists pre, x, post.
Qed.

Lemma remove_at (l : loc) (h : store) (this : Db.t) (pre post : list loc)
  (l' : loc) :
  Db.subscriptions this = pre ++ l' :: post ->
  Forall (fun l'' => has_sid h (Subscription.sid (h l)) l'' = false) pre ->
  has_sid h (Subscription.sid (h l)) l' = true ->
  Db.remove (Db.a_Subscription l) h this
  = Db.mkOutcome (returned tt) h
      (Db.mk (Db.version this) (pre ++ post))
      [console_log ("Remove subscription{" ++ Subscription.name (h l)
                    ++ "} successfully.")%string].
Proof.
  intros E Hpre Hl'. unfold Db.remove, has_sid in *. rewrite E.
  rewrite (findIndex_first _ pre post l' Hpre Hl').
  replace (Z.of_nat (List.length pre) >=? 0) with true
    by (symmetry; apply Z.geb_le; lia).
  now rewrite splice1_middle.
Qed.

(** The two cases of [remove]. *)
Lemma remove_cases (l : loc) (h : store) (this : Db.t) :
  (Forall (fun l' => has_sid h (Subscription.sid (h l)) l' = false)
     (Db.subscriptions this)
   /\ Db.remove (Db.a_Subscription l) h this
      = Db.mkOutcome (returned tt) h this [])
  \/ exists pre l' post,
       Db.subscriptions this = pre ++ l' :: post
       /\ Forall (fun l'' => has_sid h (Subscription.sid (h l)) l''
                             = false) pre
       /\ has_sid h (Subscription.sid (h l)) l' = true
       /\ Db.remove (Db.a_Subscription l) h this
          = Db.mkOutcome (returned tt) h
              (Db.mk (Db.version this) (pre ++ post))
              [console_log ("Remove subscription{"
                            ++ Subscription.name (h l)
                            ++ "} successfully.")%string].
Proof.
  unfold Db.remove.
  destruct (first_match_or_none
              (fun l' => has_sid h (Subscription.sid (h l)) l')
              (Db.subscriptions this))
    as [Hnone | (pre & l' & post & E & Hpre & Hl')].
  - left. split; [exact Hnone|].
    unfold has_sid in Hnone. now rewrite (findIndex_none _ _ Hnone).
  - right. exists pre, l', post. repeat split; try assumption.
    rewrite E. unfold has_sid in Hpre, Hl'.
    rewrite (findIndex_first _ pre post l' Hpre Hl').
    replace (Z.of_nat (List.length pre) >=? 0) with true
      by (symmetry; apply Z.geb_le; lia).
    now rewrite splice1_middle.
Qed.

(** X18. [remove] takes out the first subscription of the array whose
    sid equals that of the argument, and only that one, and logs the
    removal; when no subscription has that sid it changes nothing and
    logs nothing.  The store is never changed. *)
Theorem remove_takes_out_first_match (l : loc) (h : store) (this : Db.t) :
  (Forall (fun l' => has_sid h (Subscription.sid (h l)) l' = false)
     (Db.subscriptions this) ->
   Db.remove (Db.a_Subscription l) h this
   = Db.mkOutcome (returned tt) h this [])
  /\ (forall pre l' post,
        Db.subscriptions this = pre ++ l' :: post ->
        Forall (fun l'' => has_sid h (Subscription.sid (h l)) l'' = false)
          pre ->
        has_sid h (Subscription.sid (h l)) l' = true ->
        Db.remove (Db.a_Subscription l) h this
        = Db.mkOutcome (returned tt) h
            (Db.mk (Db.version this) (pre ++ post))
            [console_log ("Remove subscription{" ++ Subscription.name (h l)
                          ++ "} successfully.")%string]).
Proof.
  unfold Db.remove, has_sid. split.
  - intros Hnone. now rewrite (findIndex_none _ _ Hnone).
  - intros pre l' post E Hpre Hl'. rewrite E.
    rewrite (findIndex_first _ pre post l' Hpre Hl').
    replace (Z.of_nat (List.length pre) >=? 0) with true
      by (symmetry; apply Z.geb_le; lia).
    now rewrite splice1_middle.
Qed.

(** X19. When the sids of the database are pairwise distinct, after
    [remove] no subscription of the database has the sid of the argument,
    and the subscriptions with another sid are all still there. *)
Theorem remove_leaves_no_such_sid (l : loc) (h : store) (this : Db.t)
  (s : string) :
  NoDup (Db.sids h this) ->
  Subscription.sid (h l) = Some s ->
  let o := Db.remove (Db.a_Subscription l) h this in
  Db.has (Db.heap o) (Db.db o) Db.key_sid (Db.prim_string s) = false
  /\ (forall l', In l' (Db.subscriptions this) ->
                 Subscription.sid (h l') <> Some s ->
                 In l' (Db.subscriptions (Db.db o))).
Proof.
  intros Hnd Hs o.
  assert (Hfield : forall l', Db.field_equals (h l') Db.key_sid
                                (Db.prim_string s)
                              = has_sid h (Subscription.sid (h l)) l').
  { intros l'. unfold has_sid. rewrite Hs. simpl.
    now destruct (Subscription.sid (h l')). }
  destruct (remove_cases l h this)
    as [[Hnone E] | (pre & l' & post & Esubs & Hpre & Hl' & E)];
    unfold o; rewrite E; cbn [Db.heap Db.db Db.subscriptions].
  - split; [|trivial].
    unfold Db.has, Db.results.
    replace (filter _ _) with (@nil loc); [reflexivity|].
    symmetry. apply filter_none. revert Hnone. apply Forall_impl.
    intros l'. now rewrite Hfield.
  - assert (Hpost : Forall (fun l'' => has_sid h (Subscription.sid (h l)) l''
                                       = false) post).
    { unfold Db.sids in Hnd. rewrite Esubs, map_app in Hnd. simpl in Hnd.
      apply NoDup_remove_2 in Hnd. apply Forall_forall. intros x Hx.
      apply not_true_is_false. intros Hm. apply Hnd.
      apply in_or_app. right.
      unfold has_sid in Hm, Hl'. apply sid_equals_eq in Hm, Hl'.
      rewrite Hl', <- Hm.
      now apply (in_map (fun l0 => Subscription.sid (h l0))). }
    split.
    + unfold Db.has, Db.results. cbn [Db.subscriptions].
      replace (filter _ _) with (@nil loc); [reflexivity|].
      symmetry. apply filter_none. apply Forall_app. split.
      * revert Hpre. apply Forall_impl. intros x. now rewrite Hfield.
      * revert Hpost. apply Forall_impl. intros x. now rewrite Hfield.
    + intros x Hin Hx. rewrite Esubs in Hin.
      apply in_app_or in Hin. apply in_or_app.
      destruct Hin as [Hin | [<- | Hin]]; [now left | | now right].
      exfalso. apply Hx. unfold has_sid in Hl'.
      apply sid_equals_eq in Hl'. congruence.
Qed.

(** ** [add] and [remove] together *)

(** X20. Adding a subscription that is not in the database and removing
    it again leaves the database as it was before: the subscription taken
    out is the one just added, and the order of the others is kept. *)
Theorem add_then_remove_restores (hash : string -> string -> string)
  (fuel : nat) (l : loc) (h : store) (this : Db.t) (o : Db.outcome) :
  ~ In l (Db.subscriptions this) ->
  Db.add hash fuel (Db.a_Subscription l) h this = Some o ->
  Db.db (Db.remove (Db.a_Subscription l) (Db.heap o) (Db.db o)) = this
  /\ Db.completes (Db.remove (Db.a_Subscription l) (Db.heap o) (Db.db o))
     = returned tt.
Proof.
  intros Hl Hadd.
  destruct (add_returns _ _ _ _ _ _ Hadd) as (s & Hfresh & ->).
  cbn [Db.heap Db.db].
  rewrite (remove_at l _ _ (Db.subscriptions this) [] l).
  - cbn [Db.db Db.completes Db.version]. rewrite app_nil_r.
    now destruct this.
  - reflexivity.
  - apply Forall_forall. intros l' Hin. unfold has_sid.
    rewrite store_set_same.
    assert (Hne : l' <> l) by (intros ->; contradiction).
    rewrite (store_set_other _ _ _ _ Hne).
    apply not_true_is_false. intros Hm. apply sid_equals_eq in Hm.
    apply Hfresh. cbn [Subscription.sid Subscription.set_sid] in Hm.
    rewrite <- Hm. unfold Db.sids.
    now apply (in_map (fun l0 => Subscription.sid (h l0))).
  - unfold has_sid. now apply sid_equals_eq.
Qed.

Lemma add_then_remove_restores_witness :
  ~ In 1%nat (Db.subscriptions example_db)
  /\ exists o,
       Db.add example_hash 2 (Db.a_Subscription 1%nat) example_store example_db
       = Some o
       /\ Db.db (Db.remove (Db.a_Subscription 1%nat) (Db.heap o) (Db.db o))
          = example_db.
Proof.
  assert (H1 : ~ In 1%nat (Db.subscriptions example_db))
    by (intros [H | []]; discriminate).
  split; [exact H1|].
  eexists. split; [reflexivity|].
  exact (proj1 (add_then_remove_restores example_hash 2 1%nat
                  example_store example_db _ H1 eq_refl)).
Defined.

(** X21. [add] does not look whether the subscription is already in the
    database: when it is, the call that returns leaves it twice in the
    array, and the sids of the database are no longer pairwise distinct. *)
Theorem add_again_duplicates_sid (hash : string -> string -> string)
  (fuel : nat) (l : loc) (h : store) (this : Db.t) (o : Db.outcome) :
  In l (Db.subscriptions this) ->
  Db.add hash fuel (Db.a_Subscription l) h this = Some o ->
  ~ NoDup (Db.subscriptions (Db.db o))
  /\ ~ NoDup (Db.sids (Db.heap o) (Db.db o)).
Proof.
  intros Hl Hadd.
  destruct (add_returns _ _ _ _ _ _ Hadd) as (s & Hfresh & ->).
  cbn [Db.heap Db.db Db.subscriptions].
  destruct (in_split _ _ Hl) as (pre & post & E).
  split; intros Hnd.
  - rewrite E, <- app_assoc in Hnd. apply NoDup_remove_2 in Hnd.
    apply Hnd. apply in_or_app. right. apply in_or_app. right. now left.
  - unfold Db.sids in Hnd. cbn [Db.subscriptions] in Hnd.
    rewrite E, <- app_assoc, map_app in Hnd. cbn [map app] in Hnd.
    apply NoDup_remove_2 in Hnd. apply Hnd.
    apply in_or_app. right. rewrite map_app. apply in_or_app. right.
    now left.
Qed.

Lemma add_again_duplicates_sid_witness :
  In 0%nat (Db.subscriptions example_db)
  /\ exists o,
       Db.add example_hash 2 (Db.a_Subscription 0%nat) example_store example_db
       = Some o
       /\ Db.sids (Db.heap o) (Db.db o)
          = [Some "Show#Show#kw"; Some "Show#Show#kw"]
       /\ ~ NoDup (Db.sids (Db.heap o) (Db.db o)).
Proof.
  assert (H1 : In 0%nat (Db.subscriptions example_db)) by (now left).
  split; [exact H1|].
  eexists. split; [reflexivity|]. split; [reflexivity|].
  exact (proj2 (add_again_duplicates_sid example_hash 2 0%nat
                  example_store example_db _ H1 eq_refl)).
Defined.

(** ** [Database.sort] *)

Lemma sort_each_spec (ls : list loc) (h : store) (l : loc) :
  (In l ls -> Db.sort_each h ls l = Subscription.sort (h l))
  /\ (~ In l ls -> Db.sort_each h ls l = h l).
Proof.
  revert h. induction ls as [|a ls IH]; intros h.
  - split; [intros [] | reflexivity].
  - cbn [Db.sort_each fold_left].
    change (fold_left _ ls ?h0) with (Db.sort_each h0 ls).
    destruct (IH (store_set h a (Subscription.sort (h a)))) as [IHin IHout].
    destruct (in_dec Nat.eq_dec l ls) as [Hin | Hout].
    + split; [|intros H; exfalso; apply H; now right].
      intros _. rewrite (IHin Hin).
      destruct (Nat.eq_dec l a) as [-> | Hne].
      * now rewrite store_set_same, Subscription_sort_idem.
      * now rewrite store_set_other.
    + rewrite (IHout Hout). split.
      * intros [<- | Hin]; [apply store_set_same | contradiction].
      * intros H. apply store_set_other. intros ->. apply H. now left.
Qed.

Lemma latest_gt_asym (h : store) : asymmetric (Db.latest_gt h).
Proof.
  intros a b. unfold Db.latest_gt, minus. apply positive_sub_asym.
Qed.

Lemma sort_each_latest (ls : list loc) (h : store) (l : loc) :
  Subscription.latest (Db.sort_each h ls l) = Subscription.latest (h l).
Proof.
  destruct (sort_each_spec ls h l) as [Hin Hout].
  destruct (in_dec Nat.eq_dec l ls) as [H | H].
  - now rewrite (Hin H).
  - now rewrite (Hout H).
Qed.

(** X22. On a database whose subscriptions all have a finite [latest]
    and threads with a finite [ep[0]], [Database.sort] sorts the threads of
    every subscription of the database, leaves the other objects alone, and
    rearranges the array of subscriptions, none lost and none added, so
    that no subscription stands immediately before one with a greater
    [latest]. *)
Theorem sort_sorts_each_and_orders (h : store) (this : Db.t) :
  Forall (fun l => Forall has_first_episode (Subscription.threads (h l))
                   /\ exists q, Subscription.latest (h l) = Num (Finite q))
    (Db.subscriptions this) ->
  let h' := fst (Db.sort h this) in
  let this' := snd (Db.sort h this) in
  Permutation (Db.subscriptions this') (Db.subscriptions this)
  /\ Db.version this' = Db.version this
  /\ (forall l, In l (Db.subscriptions this) ->
                h' l = Subscription.sort (h l))
  /\ (forall l, ~ In l (Db.subscriptions this) -> h' l = h l)
  /\ Sorted (in_order (Db.latest_gt h')) (Db.subscriptions this').
Proof.
  intros _ h' this'. unfold h', this', Db.sort.
  cbn [fst snd Db.subscriptions Db.version].
  repeat split.
  - apply Array_sort_perm.
  - intros l. apply sort_each_spec.
  - intros l. apply sort_each_spec.
  - apply Array_sort_Sorted, latest_gt_asym.
Qed.

Lemma sort_sorts_each_and_orders_witness :
  Forall (fun l => Forall has_first_episode (Subscription.threads (shelf l))
                   /\ exists q, Subscription.latest (shelf l) = Num (Finite q))
    (Db.subscriptions shelf_db)
  /\ Permutation (Db.subscriptions (snd (Db.sort shelf shelf_db)))
       (Db.subscriptions shelf_db)
  /\ Db.version (snd (Db.sort shelf shelf_db)) = Db.version shelf_db
  /\ (forall l, In l (Db.subscriptions shelf_db) ->
                fst (Db.sort shelf shelf_db) l = Subscription.sort (shelf l))
  /\ (forall l, ~ In l (Db.subscriptions shelf_db) ->
                fst (Db.sort shelf shelf_db) l = shelf l)
  /\ Sorted (in_order (Db.latest_gt (fst (Db.sort shelf shelf_db))))
       (Db.subscriptions (snd (Db.sort shelf shelf_db))).
Proof.
  assert (H : Forall (fun l => Forall has_first_episode
                                 (Subscription.threads (shelf l))
                               /\ exists q, Subscription.latest (shelf l)
                                            = Num (Finite q))
                (Db.subscriptions shelf_db)).
  { repeat constructor;
      try (now exists 1%Q); try (now exists 2%Q); try (now exists 3%Q). }
  split; [exact H|].
  exact (sort_sorts_each_and_orders shelf shelf_db H).
Defined.

Lemma latest_descend_trans (h : store) (a b c : loc) :
  latest_descend h a b -> latest_descend h b c -> latest_descend h a c.
Proof.
  intros (x & y & Hx & Hy & Hxy) (y' & z & Hy' & Hz & Hyz).
  exists x, z. repeat split; try assumption.
  rewrite Hy in Hy'. injection Hy' as <-.
  exact (Qle_trans _ _ _ Hyz Hxy).
Qed.

(** X23. When [latest] is a finite number in every subscription of the
    database, [Database.sort] leaves the subscriptions in descending order
    of [latest]: each against every later one. *)
Theorem sort_orders_by_latest (h : store) (this : Db.t) :
  Forall (fun l => exists q, Subscription.latest (h l) = Num (Finite q))
    (Db.subscriptions this) ->
  StronglySorted (latest_descend (fst (Db.sort h this)))
    (Db.subscriptions (snd (Db.sort h this))).
Proof.
  intros Hfin. unfold Db.sort. cbn [fst snd Db.subscriptions].
  set (h' := Db.sort_each h (Db.subscriptions this)).
  apply Sorted_StronglySorted; [intros a b c; apply latest_descend_trans|].
  assert (Hfin' : Forall (fun l => exists q, Subscription.latest (h' l)
                                             = Num (Finite q))
                    (Array_sort (Db.latest_gt h') (Db.subscriptions this))).
  { apply (Permutation_Forall (Permutation_sym (Array_sort_perm _ _))).
    revert Hfin. apply Forall_impl. intros l [q Hq]. exists q.
    unfold h'. now rewrite sort_each_latest. }
  pose proof (Array_sort_Sorted (Db.latest_gt h') (Db.subscriptions this)
                (latest_gt_asym h')) as Hs.
  induction Hs as [|a ls Hs IH Hhd]; constructor.
  - apply IH. now apply Forall_cons_iff in Hfin'.
  - apply Forall_cons_iff in Hfin'. destruct Hfin' as [[x Hx] Hls].
    destruct Hhd as [|b ls' Hab]; constructor.
    apply Forall_cons_iff in Hls. destruct Hls as [[y Hy] _].
    exists x, y. repeat split; try assumption.
    unfold in_order, Db.latest_gt, minus in Hab. rewrite Hx, Hy in Hab.
    simpl ToNumber in Hab. apply Qnot_lt_le. intros Hlt.
    apply (proj2 (positive_sub_Finite x y)) in Hlt. congruence.
Qed.

Lemma sort_orders_by_latest_witness :
  Forall (fun l => exists q, Subscription.latest (shelf l) = Num (Finite q))
    (Db.subscriptions shelf_db)
  /\ Db.subscriptions (snd (Db.sort shelf shelf_db)) = [1%nat; 0%nat]
  /\ StronglySorted (latest_descend (fst (Db.sort shelf shelf_db)))
       (Db.subscriptions (snd (Db.sort shelf shelf_db))).
Proof.
  assert (H : Forall (fun l => exists q, Subscription.latest (shelf l)
                                         = Num (Finite q))
                (Db.subscriptions shelf_db)).
  { repeat constructor; [now exists 1%Q | now exists 3%Q]. }
  split; [exact H|]. split; [vm_compute; reflexivity|].
  exact (sort_orders_by_latest shelf shelf_db H).
Defined.

(** ** The table of [Subscription.list] *)

Lemma repeat_string_length (n : nat) :
  code_unit_length (repeat_string "=" n) = n.
Proof.
  unfold code_unit_length. induction n as [|n IH]; [reflexivity|].
  change (repeat_string "=" (S n)) with (String "=" (repeat_string "=" n)).
  change (code_units (String "=" (repeat_string "=" n)))
    with (61%N :: code_units (repeat_string "=" n)).
  simpl. now rewrite IH.
Qed.

Lemma StronglySorted_snoc {A : Type} (R : A -> A -> Prop) (l : list A)
  (x : A) :
  StronglySorted R l -> Forall (fun y => R y x) l ->
  StronglySorted R (l ++ [x]).
Proof.
  induction 1 as [|a l Hs IH Hall]; intros Hx; simpl.
  - repeat constructor.
  - apply Forall_cons_iff in Hx. destruct Hx as [Ha Hx].
    constructor; [now apply IH|].
    apply Forall_app. split; [exact Hall | now constructor].
Qed.

Lemma StronglySorted_rev {A : Type} (R : A -> A -> Prop) (l : list A) :
  StronglySorted R l -> StronglySorted (fun a b => R b a) (rev l).
Proof.
  induction 1 as [|a l Hs IH Hall]; simpl; [constructor|].
  apply StronglySorted_snoc; [exact IH|].
  apply Forall_forall. intros y Hy. apply in_rev in Hy.
  rewrite Forall_forall in Hall. now apply Hall.
Qed.

(** X24. When the threads are in descending order of [ep[0]], [list()]
    prints the line of the subscription, an underline of as many code
    units as the line has, an empty line, and a table of the threads from
    the earliest to the latest: its rows show the threads in ascending
    order of [ep[0]]. *)
Theorem list_prints_earliest_first (ToString : number -> string)
  (this : Subscription.t) :
  Sorted first_episodes_descend (Subscription.threads this) ->
  exists underline rows,
    Subscription.list ToString this
    = [console_log (Subscription.subscribable_of this);
       console_log underline; console_log EmptyString; console_table rows]
    /\ code_unit_length underline
       = code_unit_length (Subscription.subscribable_of this)
    /\ shows ToString rows (rev (Subscription.threads this))
    /\ StronglySorted first_episodes_ascend (rev (Subscription.threads this)).
Proof.
  intros Hs. eexists. eexists. split; [reflexivity|]. split; [|split].
  - apply repeat_string_length.
  - unfold shows, Subscription.rows_of. now rewrite map_rev.
  - apply (StronglySorted_rev first_episodes_descend).
    apply Sorted_StronglySorted; [|exact Hs].
    intros a b c. apply first_episodes_descend_trans.
Qed.

Lemma list_prints_earliest_first_witness :
  Sorted first_episodes_descend (Subscription.threads show_3_2_1)
  /\ exists underline rows,
       Subscription.list ToString_dec show_3_2_1
       = [console_log "Show,kw"; console_log underline;
          console_log EmptyString; console_table rows]
       /\ rows = [mkRow "1" "E1"; mkRow "2" "E2"; mkRow "3" "E3"].
Proof.
  assert (H : Sorted first_episodes_descend (Subscription.threads show_3_2_1)).
  { change (Subscription.threads show_3_2_1) with [E3; E2; E1].
    repeat constructor.
    - exists 2%Q, 1%Q. repeat split. discriminate.
    - exists 3%Q, 2%Q. repeat split. discriminate. }
  split; [exact H|].
  destruct (list_prints_earliest_first ToString_dec show_3_2_1 H)
    as (underline & rows & E & _ & Hrows & _).
  exists underline, rows. split; [exact E|]. exact Hrows.
Defined.

(** ** Range tokens on sorted threads *)

Lemma firstn_skipn_In {A : Type} (k c : nat) (l : list A) (x : A) :
  In x (firstn c (skipn k l)) -> In x (firstn (k + c) l).
Proof.
  revert l. induction k as [|k IH]; intros l; [trivial|].
  destruct l as [|y l]; simpl.
  - now rewrite firstn_nil.
  - intros H. right. now apply IH.
Qed.

Lemma firstn_le_In {A : Type} (n m : nat) (l : list A) (x : A) :
  (n <= m)%nat -> In x (firstn n l) -> In x (firstn m l).
Proof.
  revert m l. induction n as [|n IH]; intros m l Hle; [intros []|].
  destruct m as [|m]; [lia|]. destruct l as [|y l]; [trivial|].
  simpl. intros [-> | H]; [now left|]. right. apply (IH m); [lia | exact H].
Qed.

Lemma StronglySorted_before {A : Type} (R : A -> A -> Prop)
  (pre post : list A) (x : A) :
  StronglySorted R (pre ++ x :: post) ->
  Forall (fun y => R y x) pre /\ Forall (R x) post.
Proof.
  induction pre as [|a pre IH]; simpl; intros H;
    apply StronglySorted_inv in H; destruct H as [H Hall].
  - now split.
  - destruct (IH H) as [Hpre Hpost]. split; [|exact Hpost].
    constructor; [|exact Hpre].
    rewrite Forall_forall in Hall. apply Hall.
    apply in_or_app. right. now left.
Qed.

Lemma first_match_present {A : Type} (p : A -> bool) (ls : list A) :
  existsb p ls = true ->
  exists pre x post, ls = pre ++ x :: post
                     /\ Forall (fun y => p y = false) pre /\ p x = true.
Proof.
  intros H. destruct (first_match_or_none p ls) as [Hnone | Hsome];
    [|exact Hsome].
  exfalso. apply existsb_exists in H. destruct H as (x & Hin & Hx).
  rewrite Forall_forall in Hnone. rewrite (Hnone x Hin) in Hx. discriminate.
Qed.

(** X13. A range token both of whose bounds some thread holds selects
    the threads from the first thread holding [epj] through the first
    thread holding [epi], and none when the latter stands before the
    former.  On threads in descending order of [ep[0]], each selected
    thread is then one of the two, or has an [ep[0]] not above that of the
    first and not below that of the second. *)
Theorem range_selects_between_bounds (Number : string -> number)
  (ToString : number -> string) (this : Subscription.t) (ep_ : string) :
  StronglySorted first_episodes_descend (Subscription.threads this) ->
  isFinite (Number ep_) = false ->
  occurs this (snd (Subscription.range_bounds Number ToString ep_)) = true ->
  occurs this (fst (Subscription.range_bounds Number ToString ep_)) = true ->
  exists pre first post pre' last post',
    Subscription.threads this = pre ++ first :: post
    /\ Forall (fun t => includes (ep t)
                          (snd (Subscription.range_bounds Number ToString ep_))
                        = false) pre
    /\ includes (ep first)
         (snd (Subscription.range_bounds Number ToString ep_)) = true
    /\ Subscription.threads this = pre' ++ last :: post'
    /\ Forall (fun t => includes (ep t)
                          (fst (Subscription.range_bounds Number ToString ep_))
                        = false) pre'
    /\ includes (ep last)
         (fst (Subscription.range_bounds Number ToString ep_)) = true
    /\ Subscription.token_threads Number ToString this ep_
       = skipn (List.length pre) (pre' ++ [last])
    /\ forall th,
         In th (Subscription.token_threads Number ToString this ep_) ->
         (th = first \/ first_episodes_descend first th)
         /\ (th = last \/ first_episodes_descend th last).
Proof.
  intros Hsorted Hrange Hj Hi.
  unfold Subscription.token_threads. rewrite Hrange.
  destruct (Subscription.range_bounds Number ToString ep_) as [epi epj].
  cbn [fst snd] in *. unfold occurs in Hj, Hi.
  destruct (first_match_present _ _ Hj)
    as (pre & first & post & E & Hpre & Hfirst).
  destruct (first_match_present _ _ Hi)
    as (pre' & last & post' & E' & Hpre' & Hlast).
  exists pre, first, post, pre', last, post'.
  assert (Hhead : findIndex (fun t => includes (ep t) epj)
                    (Subscription.threads this)
                  = Z.of_nat (List.length pre))
    by (rewrite E; now apply findIndex_first).
  assert (Htail : findIndex (fun t => includes (ep t) epi)
                    (Subscription.threads this)
                  = Z.of_nat (List.length pre'))
    by (rewrite E'; now apply findIndex_first).
  assert (Hslice : slice (Subscription.threads this)
                     (findIndex (fun t => includes (ep t) epj)
                        (Subscription.threads this))
                     (findIndex (fun t => includes (ep t) epi)
                        (Subscription.threads this) + 1)
                   = skipn (List.length pre) (pre' ++ [last])).
  { rewrite Hhead, Htail. unfold slice.
    set (len := List.length (Subscription.threads this)).
    assert (Hlen : (List.length pre < len)%nat)
      by (unfold len; rewrite E, length_app; simpl; lia).
    assert (Hlen' : (List.length pre' < len)%nat)
      by (unfold len; rewrite E', length_app; simpl; lia).
    replace (Z.of_nat (List.length pre) <? 0) with false
      by (symmetry; apply Z.ltb_ge; lia).
    replace (Z.of_nat (List.length pre') + 1 <? 0) with false
      by (symmetry; apply Z.ltb_ge; lia).
    replace (Z.to_nat (Z.min (Z.of_nat (List.length pre)) (Z.of_nat len)))
      with (List.length pre) by lia.
    replace (Z.to_nat _)
      with (S (List.length pre') - List.length pre)%nat by lia.
    rewrite <- skipn_firstn_comm. f_equal.
    rewrite E' at 1.
    replace (S (List.length pre')) with (List.length pre' + 1)%nat by lia.
    now rewrite firstn_app_2. }
  assert (Hpl : pre' ++ [last]
                = firstn (List.length pre' + 1) (Subscription.threads this)).
  { rewrite E'. now rewrite firstn_app_2. }
  split; [exact E|]. split; [exact Hpre|]. split; [exact Hfirst|].
  split; [exact E'|]. split; [exact Hpre'|]. split; [exact Hlast|].
  split; [exact Hslice|].
  intros th Hin. rewrite Hslice in Hin. split.
  - rewrite Hpl, skipn_firstn_comm in Hin. apply In_firstn in Hin.
    rewrite E in Hin at 1.
    rewrite skipn_app, skipn_all, Nat.sub_diag in Hin. simpl in Hin.
    destruct Hin as [<- | H]; [now left|]. right.
    rewrite E in Hsorted.
    apply StronglySorted_before in Hsorted. destruct Hsorted as [_ Hpost].
    rewrite Forall_forall in Hpost. now apply Hpost.
  - apply In_skipn, in_app_or in Hin.
    destruct Hin as [H | [<- | []]]; [|now left].
    right. rewrite E' in Hsorted.
    apply StronglySorted_before in Hsorted. destruct Hsorted as [Hbefore _].
    rewrite Forall_forall in Hbefore. now apply Hbefore.
Qed.

(** ** The further properties on the example subscriptions *)

Lemma show_6_5_4_1_sorted :
  StronglySorted first_episodes_descend (Subscription.threads show_6_5_4_1).
Proof.
  change (Subscription.threads show_6_5_4_1) with [E6; E5_1; E4; E1].
  assert (H65 : first_episodes_descend E6 E5_1)
    by (exists 6%Q, 5%Q; repeat split; discriminate).
  assert (H64 : first_episodes_descend E6 E4)
    by (exists 6%Q, 4%Q; repeat split; discriminate).
  assert (H61 : first_episodes_descend E6 E1)
    by (exists 6%Q, 1%Q; repeat split; discriminate).
  assert (H54 : first_episodes_descend E5_1 E4)
    by (exists 5%Q, 4%Q; repeat split; discriminate).
  assert (H51 : first_episodes_descend E5_1 E1)
    by (exists 5%Q, 1%Q; repeat split; discriminate).
  assert (H41 : first_episodes_descend E4 E1)
    by (exists 4%Q, 1%Q; repeat split; discriminate).
  repeat constructor; assumption.
Qed.

Lemma range_selects_between_bounds_witness :
  (StronglySorted first_episodes_descend (Subscription.threads show_6_5_4_1)
   /\ isFinite (Number_dec "1..6") = false
   /\ occurs show_6_5_4_1
        (snd (Subscription.range_bounds Number_dec ToString_dec "1..6")) = true
   /\ occurs show_6_5_4_1
        (fst (Subscription.range_bounds Number_dec ToString_dec "1..6"))
      = true)
  /\ Subscription.token_threads Number_dec ToString_dec show_6_5_4_1 "1..6"
     = [E6; E5_1]
  /\ exists pre first post pre' last post',
       Subscription.threads show_6_5_4_1 = pre ++ first :: post
       /\ Forall (fun t => includes (ep t)
                             (snd (Subscription.range_bounds Number_dec
                                     ToString_dec "1..6")) = false) pre
       /\ includes (ep first)
            (snd (Subscription.range_bounds Number_dec ToString_dec "1..6"))
          = true
       /\ Subscription.threads show_6_5_4_1 = pre' ++ last :: post'
       /\ Forall (fun t => includes (ep t)
                             (fst (Subscription.range_bounds Number_dec
                                     ToString_dec "1..6")) = false) pre'
       /\ includes (ep last)
            (fst (Subscription.range_bounds Number_dec ToString_dec "1..6"))
          = true
       /\ Subscription.token_threads Number_dec ToString_dec show_6_5_4_1
            "1..6"
          = skipn (List.length pre) (pre' ++ [last])
       /\ forall th,
            In th (Subscription.token_threads Number_dec ToString_dec
                     show_6_5_4_1 "1..6") ->
            (th = first \/ first_episodes_descend first th)
            /\ (th = last \/ first_episodes_descend th last).
Proof.
  assert (H1 := show_6_5_4_1_sorted).
  assert (H2 : isFinite (Number_dec "1..6") = false) by reflexivity.
  assert (H3 : occurs show_6_5_4_1
                 (snd (Subscription.range_bounds Number_dec ToString_dec
                         "1..6")) = true) by (vm_compute; reflexivity).
  assert (H4 : occurs show_6_5_4_1
                 (fst (Subscription.range_bounds Number_dec ToString_dec
                         "1..6")) = true) by (vm_compute; reflexivity).
  split; [now repeat split|]. split; [vm_compute; reflexivity|].
  exact (range_selects_between_bounds Number_dec ToString_dec show_6_5_4_1
           "1..6" H1 H2 H3 H4).
Defined.

Lemma range_token_as_specified_witness :
  (isFinite (Number_dec "1..3") = false
   /\ split_dots "1..3" = ["1"; "3"]
   /\ Number_dec "1" = Finite 1 /\ Number_dec "3" = Finite 3
   /\ String.ltb (ToString_dec (Finite 3)) (ToString_dec (Finite 1))
      = negb (Qle_bool 1 3))
  /\ Subscription.token_threads Number_dec ToString_dec show_3_2_1 "1..3"
     = range_as_specified show_3_2_1 1 3.
Proof.
  split; [now repeat split|].
  exact (range_token_as_specified Number_dec ToString_dec show_3_2_1
           "1..3" "1" "3" 1 3 eq_refl eq_refl eq_refl eq_refl eq_refl).
Defined.

Lemma getThreads_returns_own_threads_witness :
  In E1 (Subscription.getThreads Number_dec ToString_dec show_3_2_1 "1..5")
  /\ In E1 (Subscription.threads show_3_2_1).
Proof.
  assert (H : In E1 (Subscription.getThreads Number_dec ToString_dec
                       show_3_2_1 "1..5")) by (vm_compute; now left).
  split; [exact H|].
  exact (getThreads_returns_own_threads Number_dec ToString_dec show_3_2_1
           "1..5" E1 H).
Defined.

Lemma remove_leaves_no_such_sid_witness :
  (NoDup (Db.sids example_store example_db)
   /\ Subscription.sid (example_store 0%nat) = Some "Show#kw")
  /\ Db.has example_store
       (Db.db (Db.remove (Db.a_Subscription 0%nat) example_store example_db))
       Db.key_sid (Db.prim_string "Show#kw")
     = false.
Proof.
  assert (H1 : NoDup (Db.sids example_store example_db))
    by (repeat constructor; intros []).
  assert (H2 : Subscription.sid (example_store 0%nat) = Some "Show#kw")
    by reflexivity.
  split; [now split|].
  exact (proj1 (remove_leaves_no_such_sid 0%nat example_store example_db
                  "Show#kw" H1 H2)).
Defined.
